(** * A shallow embedding of the sophia front end: values, symbol table and forms *)

From Stdlib Require Import ZArith Ascii.
From stdpp Require Import base gmap strings list.

Open Scope string_scope.
Open Scope list_scope.
Set Warnings "-register-all".


(** ** Errors and results (crate::error, crate::result)

    Locations carried by errors are left out: no property below
    depends on them.  [EPanic] stands for a Rust panic (index out of
    bounds, [unwrap] on [None]). *)

Inductive Error :=
| EParsing (desc : string)
| ESyntactic (desc : string)
| ESemantic (desc : string)
| EPanic (what : string).

Inductive Result (A : Type) :=
| Ok (a : A)
| Err (e : Error).
Arguments Ok {A} a.
Arguments Err {A} e.

(** The [?] operator of Rust. *)
Definition bind {A B} (r : Result A) (k : A -> Result B) : Result B :=
  match r with
  | Ok a => k a
  | Err e => Err e
  end.

Notation "'let?' x ':=' r 'in' k" := (bind r (fun x => k))
  (at level 200, x name, r at level 100, k at level 200).

(** [v[i]] on a Rust [Vec]: panics out of range. *)
Definition index {A} (l : list A) (i : nat) : Result A :=
  match l !! i with
  | Some x => Ok x
  | None => Err (EPanic "index out of bounds")
  end.

(** [Option::unwrap]. *)
Definition unwrap {A} (o : option A) : Result A :=
  match o with
  | Some x => Ok x
  | None => Err (EPanic "called unwrap on a None value")
  end.

(** ** Tokens (crate::token)

    [TokenKind] as matched exhaustively in [Values::from_str]. *)

Module TokenKind.
Inductive t :=
| Comment | DocComment | EmptyLiteral | Keyword | UIntLiteral | IntLiteral
| FloatLiteral | CharLiteral | StringLiteral | ValueSymbol | TypeSymbol
| FormStart | FormEnd.
End TokenKind.

Record Token := mkToken {
  kind : TokenKind.t;
  text : string;
  token_file : option string
}.

(** ** Keywords (crate::syntax::Keyword)

    Modelled from the spec: [syntax.rs] is not in the sources.  The
    variants are the ones [SymbolTable::from_values] names, plus [Let]
    and [Case] for the let and case forms; any other string is not a
    keyword and [Keyword::from_str] fails on it. *)

Module Keyword.
Inductive t :=
| Import | Export | Deftype | Defprim | Defsum | Defprod | Defsig | Defun
| Defattrs | Def | Type_ | Sig | Prim | Sum | Prod | Fun | App | Attrs
| Let | Case.

Definition table : list (string * t) :=
  [("import", Import); ("export", Export); ("deftype", Deftype);
   ("defprim", Defprim); ("defsum", Defsum); ("defprod", Defprod);
   ("defsig", Defsig); ("defun", Defun); ("defattrs", Defattrs);
   ("def", Def); ("type", Type_); ("sig", Sig); ("prim", Prim);
   ("sum", Sum); ("prod", Prod); ("fun", Fun); ("app", App);
   ("attrs", Attrs); ("let", Let); ("case", Case)].

Fixpoint lookup (s : string) (l : list (string * t)) : option t :=
  match l with
  | [] => None
  | (k, v) :: l => if String.eqb s k then Some v else lookup s l
  end.

Definition is_keyword (s : string) : bool :=
  match lookup s table with Some _ => true | None => false end.

Definition from_str (s : string) : Result t :=
  match lookup s table with
  | Some k => Ok k
  | None => Err (ESyntactic ("unknown keyword: " +:+ s))
  end.

Definition from_string (s : string) : Result t := from_str s.
End Keyword.

(** ** Primitive types (crate::typing::Type) *)

Module Typing.
Inductive t :=
| Empty | UInt | Int | Float | Char | String | Type_ | Builtin | Unknown
| App (types : list t).
End Typing.

(** ** Values (crate::value) *)

Module PrimValue.
Inductive t :=
| Empty
| UInt (s : string)
| Int (s : string)
| Float (s : string)
| Char (s : string)
| String (s : string).
End PrimValue.

Inductive Value := mkValue {
  name : option string;
  value : option PrimValue.t;
  typing : option Typing.t;
  children : list Value;
  token : Token
}.

Definition Values := list Value.

Definition value_name (v : Value) : option string := name v.

(** [STElement] and [STElement::from_value]. *)
Module STElement.
Record t := mk {
  name : option string;
  value : Value;
  file : option string
}.

Definition from_value (v : Value) : t :=
  mk (value_name v) v (token_file (token v)).
End STElement.

(** ** The symbol table (crate::symbol_table)

    The Rust struct has one [BTreeSet<String>] and one
    [BTreeMap<String, Vec<STElement>>] per definition category and one
    [Option<STElement>] per main slot.  They are grouped here by
    category: [names st c] is the set of category [c] and [entries st c]
    its map; the accessors below give them their Rust field names. *)

Inductive Cat :=
| CImport | CExport | CType | CPrim | CSum | CProd | CSig | CFun | CApp | CAttrs.

#[global] Instance Cat_eq_dec : EqDecision Cat.
Proof. solve_decision. Defined.

Inductive MainSlot := MType | MSig | MFun | MApp | MAttrs.

#[global] Instance MainSlot_eq_dec : EqDecision MainSlot.
Proof. solve_decision. Defined.

Record SymbolTable := mkST {
  files : gset string;
  names : Cat -> gset string;
  entries : Cat -> gmap string (list STElement.t);
  mains : MainSlot -> option STElement.t
}.

Definition imp_paths st := names st CImport.
Definition exp_defs st := names st CExport.
Definition def_types st := names st CType.
Definition def_prims st := names st CPrim.
Definition def_sums st := names st CSum.
Definition def_prods st := names st CProd.
Definition def_sigs st := names st CSig.
Definition def_funs st := names st CFun.
Definition def_apps st := names st CApp.
Definition def_attrs st := names st CAttrs.

Definition imports st := entries st CImport.
Definition exports st := entries st CExport.
Definition types st := entries st CType.
Definition prims st := entries st CPrim.
Definition sums st := entries st CSum.
Definition prods st := entries st CProd.
Definition sigs st := entries st CSig.
Definition funs st := entries st CFun.
Definition apps st := entries st CApp.
Definition attrs st := entries st CAttrs.

Definition main_type st := mains st MType.
Definition main_sig st := mains st MSig.
Definition main_fun st := mains st MFun.
Definition main_app st := mains st MApp.
Definition main_attrs st := mains st MAttrs.

(** [SymbolTable::new]. *)
Definition st_new : SymbolTable :=
  mkST ∅ (fun _ => ∅) (fun _ => ∅) (fun _ => None).

Definition add_file (st : SymbolTable) (f : string) : SymbolTable :=
  mkST ({[f]} ∪ files st) (names st) (entries st) (mains st).

(** [map.entry(k).and_modify(|v| v.push(el)).or_insert_with(|| vec![el])]. *)
Definition push_entry (m : gmap string (list STElement.t)) (k : string)
    (el : STElement.t) : gmap string (list STElement.t) :=
  match m !! k with
  | Some v => <[k := (v ++ [el])%list]> m
  | None => <[k := [el]]> m
  end.

(** The pattern every arm repeats: insert the name into the category's
    set and push the element under it in the category's map. *)
Definition register (st : SymbolTable) (c : Cat) (arg : string)
    (el : STElement.t) : SymbolTable :=
  mkST (files st)
    (fun c' => if decide (c = c') then {[arg]} ∪ names st c' else names st c')
    (fun c' => if decide (c = c') then push_entry (entries st c') arg el
               else entries st c')
    (mains st).

Definition set_main (st : SymbolTable) (k : MainSlot) (el : STElement.t)
    : SymbolTable :=
  mkST (files st) (names st) (entries st)
    (fun k' => if decide (k = k') then Some el else mains st k').

(** Which categories have a main slot, the reserved name that fills it,
    and the description of the duplicate error. *)
Definition main_of_cat (c : Cat) : option (string * MainSlot) :=
  match c with
  | CType => Some ("Main", MType)
  | CSig => Some ("main", MSig)
  | CFun => Some ("main", MFun)
  | CApp => Some ("main", MApp)
  | CAttrs => Some ("main", MAttrs)
  | _ => None
  end.

Definition dup_desc (k : MainSlot) : string :=
  match k with
  | MType => "duplicate Main type"
  | MSig => "duplicate main signature"
  | MFun => "duplicate main function"
  | MApp => "duplicate main application"
  | MAttrs => "duplicate main attributes"
  end.

(** A definition arm: register, then, for the reserved name, fill the
    main slot or fail if it is already filled. *)
Definition define (st : SymbolTable) (c : Cat) (arg : string)
    (st_el : STElement.t) : Result SymbolTable :=
  let st := register st c arg st_el in
  match main_of_cat c with
  | Some (main_name, k) =>
      if String.eqb arg main_name then
        match mains st k with
        | Some _ => Err (ESemantic (dup_desc k))
        | None => Ok (set_main st k st_el)
        end
      else Ok st
  | None => Ok st
  end.

(** The loop of the [Keyword::Export] arm over [value.children[1..]];
    every element is built from the product value itself. *)
Fixpoint export_each (st : SymbolTable) (value : Value) (cs : list Value)
    : Result SymbolTable :=
  match cs with
  | [] => Ok st
  | child :: cs =>
      let? arg := unwrap (name child) in
      export_each (register st CExport arg (STElement.from_value value)) value cs
  end.

(** The category a tag of a generic [def] dispatches to. *)
Definition def_tag_cat (k : Keyword.t) : option Cat :=
  match k with
  | Keyword.Type_ => Some CType
  | Keyword.Sig => Some CSig
  | Keyword.Prim => Some CPrim
  | Keyword.Sum => Some CSum
  | Keyword.Prod => Some CProd
  | Keyword.Fun => Some CFun
  | Keyword.App => Some CApp
  | Keyword.Attrs => Some CAttrs
  | _ => None
  end.

(** The shorthand keywords and their categories. *)
Definition shorthand_cat (k : Keyword.t) : option Cat :=
  match k with
  | Keyword.Deftype => Some CType
  | Keyword.Defsig => Some CSig
  | Keyword.Defprim => Some CPrim
  | Keyword.Defsum => Some CSum
  | Keyword.Defprod => Some CProd
  | Keyword.Defun => Some CFun
  | Keyword.Defattrs => Some CAttrs
  | _ => None
  end.

Definition is_builtin (t : Typing.t) : bool :=
  match t with Typing.Builtin => true | _ => false end.

(** One iteration of the loop of [SymbolTable::from_values]. *)
Definition st_step (st : SymbolTable) (value : Value) : Result SymbolTable :=
  let st := match token_file (token value) with
            | Some f => add_file st f
            | None => st
            end in
  match typing value with
  | Some (Typing.App tys) =>
      let? t0 := index tys 0 in
      if is_builtin t0 then
        let? kw_name := unwrap (name value) in
        let? keyword := Keyword.from_str kw_name in
        match keyword with
        | Keyword.Import =>
            let? c1 := index (children value) 1 in
            let? arg := unwrap (name c1) in
            Ok (register st CImport arg (STElement.from_value value))
        | Keyword.Export =>
            let? value := index (children value) 1 in
            if Nat.ltb 1 (length (children value)) then
              export_each st value (drop 1 (children value))
            else
              let? arg := unwrap (name value) in
              Ok (register st CExport arg (STElement.from_value value))
        | Keyword.Def =>
            if negb (Nat.eqb (length (children value)) 3) then
              Err (ESemantic "invalid definition")
            else
              let? c1 := index (children value) 1 in
              let? arg := unwrap (name c1) in
              let? arg_value := index (children value) 2 in
              let st_el := STElement.from_value value in
              let len := length (children arg_value) in
              if Nat.eqb len 2 then
                let? c0 := index (children arg_value) 0 in
                match name c0 with
                | None => Err (ESemantic "expected a keyword")
                | Some kind =>
                    let? keyword := Keyword.from_string kind in
                    match def_tag_cat keyword with
                    | Some c => define st c arg st_el
                    | None => Err (ESemantic "unexpected keyword")
                    end
                end
              else if Nat.eqb len 1 then
                let? arg := unwrap (name value) in
                Ok (register st CPrim arg st_el)
              else Err (ESemantic "invalid definition")
        | k =>
            match shorthand_cat k with
            | Some c =>
                let? c1 := index (children value) 1 in
                let? arg := unwrap (name c1) in
                define st c arg (STElement.from_value value)
            | None => Ok st
            end
        end
      else Ok st
  | _ => Ok st
  end.

(** The loop itself, from a given table: the first error aborts it. *)
Fixpoint st_run (st : SymbolTable) (vs : Values) : Result SymbolTable :=
  match vs with
  | [] => Ok st
  | v :: vs => let? st := st_step st v in st_run st vs
  end.

(** [SymbolTable::from_values]. *)
Definition from_values (vs : Values) : Result SymbolTable := st_run st_new vs.

(** ** The values builder (crate::values, [Values::from_str])

    The lexer ([Tokens::from_str]) and the constructors of [Value]
    ([Value::new_empty], ..., [Value::new_app]) are not in the sources;
    the builder is stated over any such constructors, and over the
    token sequence the lexer produced.  The two arms of the loop that
    reject comment tokens are factored out as [comment_arm] so that
    their reachability can be stated. *)

Section ValuesBuilder.

Variables new_empty new_keyword new_uint new_int new_float new_char
  new_string new_symbol : Token -> Result Value.
Variable new_app : list Token -> Result Value.

(** What the loop does on a token of kind [Comment] or [DocComment]. *)
Variable comment_arm : TokenKind.t -> Token -> Result Values.

Definition is_comment (t : Token) : bool :=
  match kind t with
  | TokenKind.Comment | TokenKind.DocComment => true
  | _ => false
  end.

(** The [for token in tokens] loop, with its state [values], [form] and
    [form_count] (an [i32]: its type is not fixed otherwise).  [atom]
    is the body shared by the arms of the atomic tokens: buffered when
    a form is open, a top-level value otherwise. *)
Fixpoint scan_with (values : Values) (form : list Token) (form_count : Z)
    (tokens : list Token) : Result Values :=
  match tokens with
  | [] => Ok values
  | token :: rest =>
      let atom (ctor : Token -> Result Value) :=
        if negb (Z.eqb form_count 0) then
          scan_with values (form ++ [token]) form_count rest
        else
          let? v := ctor token in
          scan_with (values ++ [v]) form form_count rest in
      match kind token with
      | TokenKind.Comment => comment_arm TokenKind.Comment token
      | TokenKind.DocComment => comment_arm TokenKind.DocComment token
      | TokenKind.EmptyLiteral => atom new_empty
      | TokenKind.Keyword => atom new_keyword
      | TokenKind.UIntLiteral => atom new_uint
      | TokenKind.IntLiteral => atom new_int
      | TokenKind.FloatLiteral => atom new_float
      | TokenKind.CharLiteral => atom new_char
      | TokenKind.StringLiteral => atom new_string
      | TokenKind.ValueSymbol | TokenKind.TypeSymbol => atom new_symbol
      | TokenKind.FormStart =>
          scan_with values (form ++ [token]) (form_count + 1) rest
      | TokenKind.FormEnd =>
          let form_count := (form_count - 1)%Z in
          let form := form ++ [token] in
          if Z.eqb form_count 0 then
            let? v := new_app form in
            scan_with (values ++ [v]) [] form_count rest
          else scan_with values form form_count rest
      end
  end.

(** The filter of comment and doc-comment tokens, then the loop. *)
Definition values_from_tokens_with (tokens : list Token) : Result Values :=
  scan_with [] [] 0 (filter (fun t => negb (is_comment t)) tokens).

End ValuesBuilder.

(** The two comment arms as the source writes them ([token.chunks] is
    only read for the location, which is left out). *)
Definition source_comment_arm (k : TokenKind.t) (_ : Token) : Result Values :=
  match k with
  | TokenKind.Comment => Err (EParsing "unexpected comment token")
  | _ => Err (EParsing "unexpected doc comment token")
  end.

(** ** Lexer and value constructors

    Modelled from the spec: the lexer ([Tokens::from_str]) and the
    constructors of [Value] are not in the sources.  Words are split at
    blanks and parentheses; ["()"] is the empty literal; the keywords
    that open a top-level declaration are keyword tokens (the [fun_value]
    test of [values.rs] types ["sum"] as a symbol, not a builtin); digits are an unsigned literal, a sign
    and digits a signed one; a word whose last dotted segment starts
    upper-case is a type symbol, any other word a value symbol; ['#']
    starts a comment to the end of the line, ["#!"] a doc comment.
    Tokens read from a string carry no file. *)

Definition is_blank (c : ascii) : bool :=
  Ascii.eqb c " " || Ascii.eqb c "010" || Ascii.eqb c "013" || Ascii.eqb c "009".

Definition is_digit (c : ascii) : bool :=
  let n := nat_of_ascii c in Nat.leb 48 n && Nat.leb n 57.

Definition is_upper (c : ascii) : bool :=
  let n := nat_of_ascii c in Nat.leb 65 n && Nat.leb n 90.

Fixpoint all_digits (s : string) : bool :=
  match s with
  | EmptyString => true
  | String c s => is_digit c && all_digits s
  end.

(** The last segment of a dotted path. *)
Fixpoint last_segment (s : string) (seg : string) : string :=
  match s with
  | EmptyString => seg
  | String c s =>
      if Ascii.eqb c "." then last_segment s "" else last_segment s (seg +:+ String c "")
  end.

Definition lexer_keywords : list string :=
  ["import"; "export"; "deftype"; "defprim"; "defsum"; "defprod"; "defsig";
   "defun"; "defattrs"; "def"].

Definition classify_word (w : string) : TokenKind.t :=
  if existsb (String.eqb w) lexer_keywords then TokenKind.Keyword
  else match w with
  | EmptyString => TokenKind.ValueSymbol
  | String c rest =>
      if is_digit c && all_digits rest then TokenKind.UIntLiteral
      else if (Ascii.eqb c "-" || Ascii.eqb c "+") && all_digits rest
              && negb (String.eqb rest "") then TokenKind.IntLiteral
      else match last_segment w "" with
           | String c' _ => if is_upper c' then TokenKind.TypeSymbol
                            else TokenKind.ValueSymbol
           | EmptyString => TokenKind.ValueSymbol
           end
  end.

Definition flush (w : string) : list Token :=
  if String.eqb w "" then [] else [mkToken (classify_word w) w None].

(** The rest of a line, and what follows its end. *)
Fixpoint split_line (s : string) : string * string :=
  match s with
  | EmptyString => ("", "")
  | String c s =>
      if Ascii.eqb c "010" then ("", s)
      else let (l, r) := split_line s in (String c l, r)
  end.

Fixpoint lex_go (fuel : nat) (s : string) (word : string) : list Token :=
  match fuel with
  | O => flush word
  | S fuel =>
      match s with
      | EmptyString => flush word
      | String c rest =>
          if Ascii.eqb c "(" then
            match rest with
            | String c2 rest2 =>
                if Ascii.eqb c2 ")" then
                  flush word ++ [mkToken TokenKind.EmptyLiteral "()" None]
                    ++ lex_go fuel rest2 ""
                else flush word ++ [mkToken TokenKind.FormStart "(" None]
                       ++ lex_go fuel rest ""
            | EmptyString =>
                flush word ++ [mkToken TokenKind.FormStart "(" None]
            end
          else if Ascii.eqb c ")" then
            flush word ++ [mkToken TokenKind.FormEnd ")" None] ++ lex_go fuel rest ""
          else if is_blank c then flush word ++ lex_go fuel rest ""
          else if Ascii.eqb c "#" && String.eqb word "" then
            let (line, after) := split_line rest in
            let k := match line with
                     | String c2 _ => if Ascii.eqb c2 "!" then TokenKind.DocComment
                                      else TokenKind.Comment
                     | EmptyString => TokenKind.Comment
                     end in
            mkToken k (String c line) None :: lex_go fuel after ""
          else lex_go fuel rest (word +:+ String c "")
      end
  end.

(** [Tokens::from_str]. *)
Definition tokens_from_str (s : string) : list Token :=
  lex_go (S (String.length s)) s "".

Definition new_empty (t : Token) : Result Value :=
  Ok (mkValue None (Some PrimValue.Empty) (Some Typing.Empty) [] t).
Definition new_keyword (t : Token) : Result Value :=
  Ok (mkValue (Some (text t)) None (Some Typing.Builtin) [] t).
Definition new_uint (t : Token) : Result Value :=
  Ok (mkValue None (Some (PrimValue.UInt (text t))) (Some Typing.UInt) [] t).
Definition new_int (t : Token) : Result Value :=
  Ok (mkValue None (Some (PrimValue.Int (text t))) (Some Typing.Int) [] t).
Definition new_float (t : Token) : Result Value :=
  Ok (mkValue None (Some (PrimValue.Float (text t))) (Some Typing.Float) [] t).
Definition new_char (t : Token) : Result Value :=
  Ok (mkValue None (Some (PrimValue.Char (text t))) (Some Typing.Char) [] t).
Definition new_string (t : Token) : Result Value :=
  Ok (mkValue None (Some (PrimValue.String (text t))) (Some Typing.String) [] t).
Definition new_symbol (t : Token) : Result Value :=
  Ok (mkValue (Some (text t)) None
        (Some (match kind t with
               | TokenKind.TypeSymbol => Typing.Type_
               | _ => Typing.Unknown
               end)) [] t).

Definition new_atom (t : Token) : Result Value :=
  match kind t with
  | TokenKind.EmptyLiteral => new_empty t
  | TokenKind.Keyword => new_keyword t
  | TokenKind.UIntLiteral => new_uint t
  | TokenKind.IntLiteral => new_int t
  | TokenKind.FloatLiteral => new_float t
  | TokenKind.CharLiteral => new_char t
  | TokenKind.StringLiteral => new_string t
  | TokenKind.ValueSymbol | TokenKind.TypeSymbol => new_symbol t
  | _ => Err (EParsing "unexpected token")
  end.

(** An application value: named after its head, typed by its children
    (as in the [fun_value] test of [values.rs]). *)
Definition mk_app (t : Token) (cs : list Value) : Value :=
  mkValue (match cs with c :: _ => name c | [] => None end) None
    (Some (Typing.App (map (fun c => default Typing.Unknown (typing c)) cs)))
    cs t.

(** The elements of a form up to its closing token. *)
Fixpoint parse_seq (fuel : nat) (toks : list Token)
    : Result (list Value * list Token) :=
  match fuel with
  | O => Err (EParsing "form nested too deep")
  | S fuel =>
      match toks with
      | [] => Err (EParsing "unbalanced form")
      | t :: rest =>
          match kind t with
          | TokenKind.FormEnd => Ok ([], rest)
          | TokenKind.FormStart =>
              let? p := parse_seq fuel rest in
              let (cs, rest) := p in
              let? q := parse_seq fuel rest in
              let (vs, rest) := q in
              Ok (mk_app t cs :: vs, rest)
          | _ =>
              let? v := new_atom t in
              let? q := parse_seq fuel rest in
              let (vs, rest) := q in
              Ok (v :: vs, rest)
          end
      end
  end.

(** [Value::new_app] on the buffered tokens of one form. *)
Definition new_app (form : list Token) : Result Value :=
  match form with
  | t :: rest =>
      let? p := parse_seq (length form) rest in
      Ok (mk_app t (fst p))
  | [] => Err (EParsing "empty form")
  end.

(** [Values::from_str]. *)
Definition values_from_str (s : string) : Result Values :=
  values_from_tokens_with new_empty new_keyword new_uint new_int new_float
    new_char new_string new_symbol new_app source_comment_arm
    (tokens_from_str s).

(** ** Simple values and generic forms (crate::value::SimpleValue, crate::form::form)

    Modelled from the spec: [SimpleValue], [Form] and [Form::from_tokens]
    are not in the sources.  A symbol is qualified when it contains the
    path separator ['.']; an upper-case symbol is a type keyword when it
    names a builtin type, a type path symbol when qualified, a type
    symbol otherwise; every other symbol, keywords included, is a value
    symbol, qualified or not. *)

Fixpoint has_dot (s : string) : bool :=
  match s with
  | EmptyString => false
  | String c s => Ascii.eqb c "." || has_dot s
  end.

(** [syntax::is_qualified]. *)
Definition is_qualified (s : string) : bool := has_dot s.

Definition type_keywords : list string :=
  ["Empty"; "Atomic"; "UInt"; "Int"; "Float"; "Size"; "Char"; "String";
   "Prod"; "Sum"; "Fun"].

Module SimpleValue.
Inductive t :=
| Empty
| Prim (s : string)
| TypeKeyword (s : string)
| ValueSymbol (s : string)
| TypeSymbol (s : string)
| TypePathSymbol (s : string).

Definition to_string (v : t) : string :=
  match v with
  | Empty => "()"
  | Prim s | TypeKeyword s | ValueSymbol s | TypeSymbol s | TypePathSymbol s => s
  end.
End SimpleValue.

Definition simple_of_token (t : Token) : Result SimpleValue.t :=
  let s := text t in
  match kind t with
  | TokenKind.EmptyLiteral => Ok SimpleValue.Empty
  | TokenKind.UIntLiteral | TokenKind.IntLiteral | TokenKind.FloatLiteral
  | TokenKind.CharLiteral | TokenKind.StringLiteral => Ok (SimpleValue.Prim s)
  | TokenKind.TypeSymbol =>
      if existsb (String.eqb s) type_keywords then Ok (SimpleValue.TypeKeyword s)
      else if is_qualified s then Ok (SimpleValue.TypePathSymbol s)
      else Ok (SimpleValue.TypeSymbol s)
  | TokenKind.ValueSymbol | TokenKind.Keyword => Ok (SimpleValue.ValueSymbol s)
  | TokenKind.Comment | TokenKind.DocComment =>
      Err (ESyntactic "unexpected comment")
  | TokenKind.FormStart | TokenKind.FormEnd => Err (ESyntactic "expected a value")
  end.

(** [FormTailElement]: a simple value or a nested form, given by its
    head and tail. *)
Inductive FormTailElement :=
| Simple (v : SimpleValue.t)
| Nested (head : SimpleValue.t) (tail : list FormTailElement).

Record Form := mkForm {
  head : SimpleValue.t;
  tail : list FormTailElement
}.

Fixpoint parse_tail (fuel : nat) (toks : list Token)
    : Result (list FormTailElement * list Token) :=
  match fuel with
  | O => Err (ESyntactic "form nested too deep")
  | S fuel =>
      match toks with
      | [] => Err (ESyntactic "unbalanced form")
      | t :: rest =>
          match kind t with
          | TokenKind.FormEnd => Ok ([], rest)
          | TokenKind.FormStart =>
              match rest with
              | [] => Err (ESyntactic "unbalanced form")
              | h :: rest =>
                  let? hv := simple_of_token h in
                  let? p := parse_tail fuel rest in
                  let (tl, rest) := p in
                  let? q := parse_tail fuel rest in
                  let (more, rest) := q in
                  Ok (Nested hv tl :: more, rest)
              end
          | _ =>
              let? v := simple_of_token t in
              let? q := parse_tail fuel rest in
              let (more, rest) := q in
              Ok (Simple v :: more, rest)
          end
      end
  end.

(** [Form::from_tokens]. *)
Definition form_from_tokens (toks : list Token) : Result Form :=
  match toks with
  | t :: h :: rest =>
      match kind t with
      | TokenKind.FormStart =>
          let? hv := simple_of_token h in
          let? p := parse_tail (length toks) rest in
          match snd p with
          | [] => Ok (mkForm hv (fst p))
          | _ => Err (ESyntactic "unexpected tokens after the form")
          end
      | _ => Err (ESyntactic "expected a form")
      end
  | _ => Err (ESyntactic "expected a form")
  end.

Definition join (l : list string) : string := String.concat " " l.

Fixpoint elem_to_string (e : FormTailElement) : string :=
  match e with
  | Simple v => SimpleValue.to_string v
  | Nested h tl =>
      "(" +:+ SimpleValue.to_string h +:+ " " +:+ join (map elem_to_string tl) +:+ ")"
  end.

Definition form_to_string (f : Form) : string :=
  elem_to_string (Nested (head f) (tail f)).

Definition is_err {A} (r : Result A) : bool :=
  match r with Err _ => true | Ok _ => false end.

(** ** Types forms (crate::form::types_form)

    Modelled from the spec: a types form has a type keyword or type
    symbol as head and types as tail; its tail elements are the values
    [TypeForm] also classifies. *)

Inductive TypesFormTailElement :=
| TEmpty (v : SimpleValue.t)
| TAtomic (v : SimpleValue.t)
| TKeyword (v : SimpleValue.t)
| TSymbol (v : SimpleValue.t)
| TPathSymbol (v : SimpleValue.t)
| TForm (head : SimpleValue.t) (tail : list TypesFormTailElement).

Definition TypeFormValue := TypesFormTailElement.

Fixpoint types_elem_to_string (e : TypesFormTailElement) : string :=
  match e with
  | TEmpty v | TAtomic v | TKeyword v | TSymbol v | TPathSymbol v =>
      SimpleValue.to_string v
  | TForm h tl =>
      "(" +:+ SimpleValue.to_string h +:+ " "
        +:+ join (map types_elem_to_string tl) +:+ ")"
  end.

(** The classification of a simple type value. *)
Definition types_simple (v : SimpleValue.t) : Result TypesFormTailElement :=
  match v with
  | SimpleValue.TypeKeyword k =>
      if String.eqb k "Empty" then Ok (TEmpty v)
      else if String.eqb k "Atomic" then Ok (TAtomic v)
      else Ok (TKeyword v)
  | SimpleValue.TypeSymbol _ => Ok (TSymbol v)
  | SimpleValue.TypePathSymbol _ => Ok (TPathSymbol v)
  | _ => Err (ESyntactic "unexpected value")
  end.

Fixpoint types_elem (e : FormTailElement) : Result TypesFormTailElement :=
  match e with
  | Simple v => types_simple v
  | Nested h tl =>
      match h with
      | SimpleValue.TypeKeyword _ | SimpleValue.TypeSymbol _
      | SimpleValue.TypePathSymbol _ =>
          let? ts := (fix go (l : list FormTailElement) :=
                        match l with
                        | [] => Ok []
                        | x :: l => let? a := types_elem x in
                                    let? r := go l in Ok (a :: r)
                        end) tl in
          Ok (TForm h ts)
      | _ => Err (ESyntactic "expected a type")
      end
  end.

(** [TypesForm::from_form]. *)
Definition types_from_form (f : Form) : Result TypesFormTailElement :=
  types_elem (Nested (head f) (tail f)).

(** ** [TypeForm] (src/form/type_form.rs) *)

Record TypeForm := mkTypeForm {
  tf_name : SimpleValue.t;
  tf_value : TypeFormValue
}.

(** [TypeForm::from_form]. *)
Definition type_from_form (form : Form) : Result TypeForm :=
  if negb (String.eqb (SimpleValue.to_string (head form)) "type") then
    Err (ESyntactic "expected a type keyword")
  else if negb (Nat.eqb (length (tail form)) 2) then
    Err (ESyntactic "expected a name and a type")
  else
    let? t0 := index (tail form) 0 in
    let? nm :=
      match t0 with
      | Simple value =>
          match value with
          | SimpleValue.TypeSymbol _ => Ok value
          | _ => Err (ESyntactic "expected an unqualified type symbol")
          end
      | Nested _ _ => Err (ESyntactic "unexpected form")
      end in
    let? t1 := index (tail form) 1 in
    let? v :=
      match t1 with
      | Simple value => types_simple value
      | Nested h tl =>
          match types_from_form (mkForm h tl) with
          | Ok tf => Ok tf
          | Err _ => Err (ESyntactic "expected a form of types")
          end
      end in
    Ok (mkTypeForm nm v).

(** [TypeForm::to_string]. *)
Definition type_form_to_string (tf : TypeForm) : string :=
  "(type " +:+ SimpleValue.to_string (tf_name tf) +:+ " "
    +:+ types_elem_to_string (tf_value tf) +:+ ")".

(** [TypeForm::is_empty_type], ..., [TypeForm::is_types_form]. *)
Definition is_empty_type (tf : TypeForm) : bool :=
  match tf_value tf with TEmpty _ => true | _ => false end.
Definition is_atomic_type (tf : TypeForm) : bool :=
  match tf_value tf with TAtomic _ => true | _ => false end.
Definition is_type_keyword (tf : TypeForm) : bool :=
  match tf_value tf with TKeyword _ => true | _ => false end.
Definition is_type_symbol (tf : TypeForm) : bool :=
  match tf_value tf with TSymbol _ => true | _ => false end.
Definition is_types_form (tf : TypeForm) : bool :=
  match tf_value tf with TForm _ _ => true | _ => false end.

(** ** Products, applications, let and case forms

    Modelled from the spec: [ProdForm], [AppForm], [LetForm] and
    [CaseForm] are not in the sources.  A product is a form headed by
    [prod]; an application a form headed by a value symbol (qualified or
    not, [prod] included); the elements of both are simple values or
    nested products or applications, tried in that order.  A let or case
    form is a form headed by [let] or [case], kept as it is. *)

Inductive ArgValue :=
| AEmpty
| APrim (s : string)
| ATypeKeyword (s : string)
| AValueSymbol (s : string)
| ATypeSymbol (s : string)
| ATypePathSymbol (s : string)
| AProdForm (values : list ArgValue)
| AAppForm (name : string) (params : list ArgValue).

Definition ProdFormValue := ArgValue.

Definition arg_simple (v : SimpleValue.t) : ArgValue :=
  match v with
  | SimpleValue.Empty => AEmpty
  | SimpleValue.Prim s => APrim s
  | SimpleValue.TypeKeyword s => ATypeKeyword s
  | SimpleValue.ValueSymbol s => AValueSymbol s
  | SimpleValue.TypeSymbol s => ATypeSymbol s
  | SimpleValue.TypePathSymbol s => ATypePathSymbol s
  end.

Fixpoint arg_elem (e : FormTailElement) : Result ArgValue :=
  match e with
  | Simple v => Ok (arg_simple v)
  | Nested h tl =>
      let? args := (fix go (l : list FormTailElement) :=
                      match l with
                      | [] => Ok []
                      | x :: l => let? a := arg_elem x in
                                  let? r := go l in Ok (a :: r)
                      end) tl in
      match h with
      | SimpleValue.ValueSymbol "prod" => Ok (AProdForm args)
      | SimpleValue.ValueSymbol s => Ok (AAppForm s args)
      | _ => Err (ESyntactic "expected a product or an application")
      end
  end.

Fixpoint arg_to_string (a : ArgValue) : string :=
  match a with
  | AEmpty => "()"
  | APrim s | ATypeKeyword s | AValueSymbol s | ATypeSymbol s
  | ATypePathSymbol s => s
  | AProdForm vs => "(prod " +:+ join (map arg_to_string vs) +:+ ")"
  | AAppForm n ps => "(" +:+ n +:+ " " +:+ join (map arg_to_string ps) +:+ ")"
  end.

Fixpoint args_of (l : list FormTailElement) : Result (list ArgValue) :=
  match l with
  | [] => Ok []
  | x :: l => let? a := arg_elem x in let? r := args_of l in Ok (a :: r)
  end.

Record ProdForm := mkProdForm { prod_values : list ProdFormValue }.

(** [ProdForm::from_form]. *)
Definition prod_from_form (form : Form) : Result ProdForm :=
  if negb (String.eqb (SimpleValue.to_string (head form)) "prod") then
    Err (ESyntactic "expected a prod keyword")
  else let? vs := args_of (tail form) in Ok (mkProdForm vs).

Definition prod_form_to_string (p : ProdForm) : string :=
  arg_to_string (AProdForm (prod_values p)).

Record AppForm := mkAppForm { app_name : string; app_params : list ArgValue }.

(** [AppForm::from_form]. *)
Definition app_from_form (form : Form) : Result AppForm :=
  match head form with
  | SimpleValue.ValueSymbol s =>
      let? ps := args_of (tail form) in Ok (mkAppForm s ps)
  | _ => Err (ESyntactic "expected a function application")
  end.

Definition app_form_to_string (a : AppForm) : string :=
  arg_to_string (AAppForm (app_name a) (app_params a)).

Record LetForm := mkLetForm { let_form : Form }.
Record CaseForm := mkCaseForm { case_form : Form }.

(** [LetForm::from_form] and [CaseForm::from_form]. *)
Definition let_from_form (form : Form) : Result LetForm :=
  if String.eqb (SimpleValue.to_string (head form)) "let" then Ok (mkLetForm form)
  else Err (ESyntactic "expected a let keyword").

Definition case_from_form (form : Form) : Result CaseForm :=
  if String.eqb (SimpleValue.to_string (head form)) "case" then Ok (mkCaseForm form)
  else Err (ESyntactic "expected a case keyword").

(** ** [FunForm] (src/form/fun_form.rs)

    That file reads the form as [form.name] and [form.params] with a
    [FormParam] per tail element; [form_param] is that view of the
    generic form (a qualified type symbol is a [TypeSymbol] there, which
    is why the parameters check [is_qualified] on type symbols too). *)

Module FormParam.
Inductive t :=
| Empty
| Prim (s : string)
| TypeKeyword (s : string)
| ValueSymbol (s : string)
| TypeSymbol (s : string)
| Form (head : SimpleValue.t) (tail : list FormTailElement).

Definition to_string (p : t) : string :=
  match p with
  | Empty => "()"
  | Prim s | TypeKeyword s | ValueSymbol s | TypeSymbol s => s
  | Form h tl => elem_to_string (Nested h tl)
  end.
End FormParam.

Definition form_param (e : FormTailElement) : FormParam.t :=
  match e with
  | Simple SimpleValue.Empty => FormParam.Empty
  | Simple (SimpleValue.Prim s) => FormParam.Prim s
  | Simple (SimpleValue.TypeKeyword s) => FormParam.TypeKeyword s
  | Simple (SimpleValue.ValueSymbol s) => FormParam.ValueSymbol s
  | Simple (SimpleValue.TypeSymbol s) | Simple (SimpleValue.TypePathSymbol s) =>
      FormParam.TypeSymbol s
  | Nested h tl => FormParam.Form h tl
  end.

Module FunFormParam.
Inductive t :=
| Empty
| ValueSymbol (s : string)
| TypeSymbol (s : string).

Definition to_string (p : t) : string :=
  match p with
  | Empty => "()"
  | ValueSymbol s | TypeSymbol s => s
  end.
End FunFormParam.

Module FunFormBody.
Inductive t :=
| Empty
| Prim (s : string)
| TypeKeyword (s : string)
| ValueSymbol (s : string)
| TypeSymbol (s : string)
| TypeForm_ (f : TypeForm)
| ProdForm_ (f : ProdForm)
| AppForm_ (f : AppForm)
| LetForm_ (f : LetForm)
| CaseForm_ (f : CaseForm).

Definition to_string (b : t) : string :=
  match b with
  | Empty => "()"
  | Prim s | TypeKeyword s | ValueSymbol s | TypeSymbol s => s
  | TypeForm_ f => type_form_to_string f
  | ProdForm_ f => prod_form_to_string f
  | AppForm_ f => app_form_to_string f
  | LetForm_ f => form_to_string (let_form f)
  | CaseForm_ f => form_to_string (case_form f)
  end.
End FunFormBody.

Record FunForm := mkFunForm {
  fun_params : list FunFormParam.t;
  fun_body : FunFormBody.t
}.

(** [FunForm::params_to_string]. *)
Definition params_to_string (f : FunForm) : string :=
  match fun_params f with
  | [] => "()"
  | [p] => FunFormParam.to_string p
  | ps => "(prod " +:+ join (map FunFormParam.to_string ps) +:+ ")"
  end.

(** [FunForm::to_string]. *)
Definition fun_form_to_string (f : FunForm) : string :=
  "(fun " +:+ params_to_string f +:+ " " +:+ FunFormBody.to_string (fun_body f) +:+ ")".

(** The loop over the values of a product of parameters. *)
Fixpoint fun_prod_params (params : list FunFormParam.t) (vs : list ProdFormValue)
    : Result (list FunFormParam.t) :=
  match vs with
  | [] => Ok params
  | ATypeSymbol symbol :: vs =>
      if is_qualified symbol then Err (ESyntactic "expected an unqualified symbol")
      else fun_prod_params (params ++ [FunFormParam.TypeSymbol symbol]) vs
  | AValueSymbol symbol :: vs =>
      if is_qualified symbol then Err (ESyntactic "expected an unqualified symbol")
      else fun_prod_params (params ++ [FunFormParam.ValueSymbol symbol]) vs
  | _ :: _ => Err (ESyntactic "expected a product of symbols")
  end.

(** The parameters: the first tail element. *)
Definition fun_params_of (p : FormParam.t) : Result (list FunFormParam.t) :=
  match p with
  | FormParam.Empty => Ok []
  | FormParam.ValueSymbol symbol =>
      if is_qualified symbol then Err (ESyntactic "expected an unqualified symbol")
      else Ok [FunFormParam.ValueSymbol symbol]
  | FormParam.TypeSymbol symbol =>
      if is_qualified symbol then Err (ESyntactic "expected an unqualified symbol")
      else Ok [FunFormParam.TypeSymbol symbol]
  | FormParam.Form h tl =>
      match prod_from_form (mkForm h tl) with
      | Ok prod => fun_prod_params [] (prod_values prod)
      | Err _ => Err (ESyntactic "expected a product of symbols")
      end
  | x => Err (ESyntactic ("unexpected function params: " +:+ FormParam.to_string x))
  end.

(** The cascade of a nested body form: type, product, let, case and
    application form, the first that parses. *)
Definition fun_body_form (form : Form) : Result FunFormBody.t :=
  match type_from_form form with
  | Ok f => Ok (FunFormBody.TypeForm_ f)
  | Err _ =>
  match prod_from_form form with
  | Ok f => Ok (FunFormBody.ProdForm_ f)
  | Err _ =>
  match let_from_form form with
  | Ok f => Ok (FunFormBody.LetForm_ f)
  | Err _ =>
  match case_from_form form with
  | Ok f => Ok (FunFormBody.CaseForm_ f)
  | Err _ =>
  match app_from_form form with
  | Ok f => Ok (FunFormBody.AppForm_ f)
  | Err _ => Err (ESyntactic "expected a type form, a let form or an application form")
  end end end end end.

(** The body: the second tail element. *)
Definition fun_body_of (p : FormParam.t) : Result FunFormBody.t :=
  match p with
  | FormParam.Empty => Ok FunFormBody.Empty
  | FormParam.Prim prim => Ok (FunFormBody.Prim prim)
  | FormParam.TypeKeyword keyword => Ok (FunFormBody.TypeKeyword keyword)
  | FormParam.ValueSymbol symbol => Ok (FunFormBody.ValueSymbol symbol)
  | FormParam.TypeSymbol symbol => Ok (FunFormBody.TypeSymbol symbol)
  | FormParam.Form h tl => fun_body_form (mkForm h tl)
  end.

(** [FunForm::from_form]. *)
Definition fun_from_form (form : Form) : Result FunForm :=
  if negb (String.eqb (SimpleValue.to_string (head form)) "fun") then
    Err (ESyntactic "expected a fun keyword")
  else if negb (Nat.eqb (length (tail form)) 2) then
    Err (ESyntactic "expected a symbol or form and a primitive, or a symbol or a form")
  else
    let? p0 := index (tail form) 0 in
    let? params := fun_params_of (form_param p0) in
    let? p1 := index (tail form) 1 in
    let? body := fun_body_of (form_param p1) in
    Ok (mkFunForm params body).

(** [FunForm::from_str]. *)
Definition fun_from_str (s : string) : Result FunForm :=
  let? form := form_from_tokens (tokens_from_str s) in fun_from_form form.

(** [TypeForm::from_str]. *)
Definition type_from_str (s : string) : Result TypeForm :=
  let? form := form_from_tokens (tokens_from_str s) in type_from_form form.

(** ** [SigForm] (src/value/forms/sig_form.rs)

    Modelled from the spec: [Type::from_simple_value], [Type::from_form]
    and the display of [Type] (crate::value::types) are not in the
    sources; a signature's type is classified like a type form's value. *)

Record SigForm := mkSigForm {
  sig_name : SimpleValue.t;
  sig_value : TypesFormTailElement
}.

(** [SigForm::from_form]. *)
Definition sig_from_form (form : Form) : Result SigForm :=
  if negb (String.eqb (SimpleValue.to_string (head form)) "sig") then
    Err (ESyntactic "expected a sig keyword")
  else if negb (Nat.eqb (length (tail form)) 2) then
    Err (ESyntactic "expected a name and a type")
  else
    let? t0 := index (tail form) 0 in
    let? nm :=
      match t0 with
      | Simple value =>
          match value with
          | SimpleValue.ValueSymbol _ => Ok value
          | _ => Err (ESyntactic "expected an unqualified value symbol")
          end
      | Nested _ _ => Err (ESyntactic "unexpected form")
      end in
    let? t1 := index (tail form) 1 in
    let? v :=
      match t1 with
      | Simple value => types_simple value
      | Nested h tl => types_from_form (mkForm h tl)
      end in
    Ok (mkSigForm nm v).

Definition sig_form_to_string (f : SigForm) : string :=
  "(sig " +:+ SimpleValue.to_string (sig_name f) +:+ " "
    +:+ types_elem_to_string (sig_value f) +:+ ")".

Definition sig_from_str (s : string) : Result SigForm :=
  let? form := form_from_tokens (tokens_from_str s) in sig_from_form form.

(** ** Function applications (crate::value::form::FunAppForm)

    Modelled from the spec: [FunAppForm] is not in the sources.  It
    reads a form whose head is a symbol; every symbol of its tail,
    qualified or not, is a [Symbol] parameter, a nested form a nested
    application. *)

Inductive FunAppFormParam :=
| FEmpty
| FPrim (s : string)
| FTypeKeyword (s : string)
| FSymbol (s : string)
| FFunApp (name : string) (params : list FunAppFormParam).

Record FunAppForm := mkFunAppForm {
  fa_name : string;
  fa_params : list FunAppFormParam
}.

Fixpoint fun_app_param (e : FormTailElement) : Result FunAppFormParam :=
  match e with
  | Simple SimpleValue.Empty => Ok FEmpty
  | Simple (SimpleValue.Prim s) => Ok (FPrim s)
  | Simple (SimpleValue.TypeKeyword s) => Ok (FTypeKeyword s)
  | Simple (SimpleValue.ValueSymbol s) | Simple (SimpleValue.TypeSymbol s)
  | Simple (SimpleValue.TypePathSymbol s) => Ok (FSymbol s)
  | Nested h tl =>
      let? ps := (fix go (l : list FormTailElement) :=
                    match l with
                    | [] => Ok []
                    | x :: l => let? a := fun_app_param x in
                                let? r := go l in Ok (a :: r)
                    end) tl in
      match h with
      | SimpleValue.ValueSymbol s | SimpleValue.TypeSymbol s
      | SimpleValue.TypePathSymbol s => Ok (FFunApp s ps)
      | _ => Err (ESyntactic "expected a function name")
      end
  end.

(** [FunAppForm::from_tokens]. *)
Definition fun_app_from_tokens (toks : list Token) : Result FunAppForm :=
  let? form := form_from_tokens toks in
  let? p := fun_app_param (Nested (head form) (tail form)) in
  match p with
  | FFunApp n ps => Ok (mkFunAppForm n ps)
  | _ => Err (ESyntactic "expected a function application")
  end.

(** ** [AttrsForm] (src/value/form/attrs.rs) *)

Record AttrsForm := mkAttrsForm {
  attrs_name : string;
  attrs_values : list string
}.

(** The loop over the parameters of the product. *)
Fixpoint attrs_values_of (values : list string) (ps : list FunAppFormParam)
    : Result (list string) :=
  match ps with
  | [] => Ok values
  | FSymbol symbol :: ps => attrs_values_of (values ++ [symbol]) ps
  | _ :: _ => Err (ESemantic "expected a symbol")
  end.

(** [AttrsForm::from_fun_app]. *)
Definition attrs_from_fun_app (fun_app : FunAppForm) : Result AttrsForm :=
  if negb (String.eqb (fa_name fun_app) "attrs") then
    Err (ESemantic "expected a attrs keyword")
  else if negb (Nat.eqb (length (fa_params fun_app)) 2) then
    Err (ESemantic "expected a name and a product of symbols")
  else
    let? p0 := index (fa_params fun_app) 0 in
    let? nm :=
      match p0 with
      | FSymbol symbol => Ok symbol
      | _ => Err (ESemantic "expected a symbol")
      end in
    let? p1 := index (fa_params fun_app) 1 in
    match p1 with
    | FFunApp n ps =>
        if negb (String.eqb n "prod") then
          Err (ESemantic "expected a product of symbols")
        else
          let? values := attrs_values_of [] ps in
          Ok (mkAttrsForm nm values)
    | _ => Err (ESemantic "expected a product of symbols")
    end.

(** [AttrsForm::from_str]. *)
Definition attrs_from_str (s : string) : Result AttrsForm :=
  let? fun_app := fun_app_from_tokens (tokens_from_str s) in
  attrs_from_fun_app fun_app.

(** [AttrsForm::to_string]. *)
Definition attrs_form_to_string (a : AttrsForm) : string :=
  "(attrs " +:+ attrs_name a +:+ " (prod " +:+ join (attrs_values a) +:+ "))".

(** Parsing then printing, for each kind of node. *)
Definition result_string {A} (to_s : A -> string) (r : Result A) : option string :=
  match r with Ok a => Some (to_s a) | Err _ => None end.

(** ** Auxiliary views for the properties *)

(** The table after the [st.files] update at the top of the loop body. *)
Definition file_of (st : SymbolTable) (v : Value) : SymbolTable :=
  match token_file (token v) with Some f => add_file st f | None => st end.

(** The main slot a definition of [arg] in category [c] checks. *)
Definition main_slot_of (c : Cat) (arg : string) : option MainSlot :=
  match main_of_cat c with
  | Some (main_name, k) => if String.eqb arg main_name then Some k else None
  | None => None
  end.

(** The main slot a top-level value defines, read along the paths of
    [st_step] that reach a main check: a shorthand definition, or a
    generic [def] whose specification has two children and a known tag. *)
Definition main_def_slot (v : Value) : option MainSlot :=
  match typing v with
  | Some (Typing.App (Typing.Builtin :: _)) =>
      match name v with
      | Some kw =>
          match Keyword.from_str kw with
          | Ok Keyword.Def =>
              match children v with
              | [_; c1; arg_value] =>
                  match name c1, children arg_value with
                  | Some arg, [c0; _] =>
                      match name c0 with
                      | Some kind =>
                          match Keyword.from_string kind with
                          | Ok tag =>
                              match def_tag_cat tag with
                              | Some c => main_slot_of c arg
                              | None => None
                              end
                          | Err _ => None
                          end
                      | None => None
                      end
                  | _, _ => None
                  end
              | _ => None
              end
          | Ok k =>
              match shorthand_cat k, children v with
              | Some c, _ :: c1 :: _ =>
                  match name c1 with
                  | Some arg => main_slot_of c arg
                  | None => None
                  end
              | _, _ => None
              end
          | Err _ => None
          end
      | None => None
      end
  | _ => None
  end.

(** How a token moves the [form_count] of the values builder. *)
Definition depth_step (d : Z) (t : Token) : Z :=
  match kind t with
  | TokenKind.FormStart => (d + 1)%Z
  | TokenKind.FormEnd => (d - 1)%Z
  | _ => d
  end.

Fixpoint depth_after (d : Z) (tokens : list Token) : Z :=
  match tokens with
  | [] => d
  | t :: rest => depth_after (depth_step d t) rest
  end.

(** The count never comes back to zero along [tokens]. *)
Fixpoint stays_open (d : Z) (tokens : list Token) : bool :=
  match tokens with
  | [] => true
  | t :: rest =>
      let d' := depth_step d t in negb (Z.eqb d' 0) && stays_open d' rest
  end.

(** Each category's set is the key set of its map, and no list in the
    map is empty. *)
Definition maps_match_sets (st : SymbolTable) : Prop :=
  forall c, dom (entries st c) = names st c /\
            map_Forall (fun _ l => l <> []) (entries st c).

(** A filled main slot holds an element listed under the reserved name
    of a category that checks that slot. *)
Definition mains_registered (st : SymbolTable) : Prop :=
  forall k el, mains st k = Some el ->
  exists c n l, main_of_cat c = Some (n, k) /\ entries st c !! n = Some l /\ el ∈ l.

(** [s'] extends [s]: no file, name, list element or main is lost, and
    every list of [s] is a prefix of the one in [s']. *)
Definition st_le (s s' : SymbolTable) : Prop :=
  files s ⊆ files s' /\
  (forall c, names s c ⊆ names s' c) /\
  (forall c k l, entries s c !! k = Some l ->
     exists l', entries s' c !! k = Some (l ++ l')) /\
  (forall k el, mains s k = Some el -> mains s' k = Some el).

(** The count is never negative along [tokens], from [d]. *)
Fixpoint never_negative (d : Z) (tokens : list Token) : bool :=
  match tokens with
  | [] => Z.leb 0 d
  | t :: rest => Z.leb 0 d && never_negative (depth_step d t) rest
  end.

(** A function parameter that is a symbol without a path separator. *)
Definition unqualified_param (p : FunFormParam.t) : Prop :=
  match p with
  | FunFormParam.Empty => False
  | FunFormParam.ValueSymbol s | FunFormParam.TypeSymbol s => is_qualified s = false
  end.

Ltac values_of s :=
  let r := eval vm_compute in (values_from_str s) in
  match r with Ok ?vs => constr:(vs) end.

(** * Properties *)

(** ** Attribute sets: shorthand and generic definitions *)

(** Claim C1 (counterexample): ["(defattrs sum (prod attr1 attr2 attr3))"]
    and ["(def sum (attrs (prod attr1 attr2 attr3)))"] do not give
    identical entries under [attrs["sum"]]: each entry is a snapshot of
    its own whole defining value, named [defattrs] in one table and [def]
    in the other. *)
Lemma attrs_entries_differ :
  match values_from_str "(defattrs sum (prod attr1 attr2 attr3))",
        values_from_str "(def sum (attrs (prod attr1 attr2 attr3)))" with
  | Ok vs1, Ok vs2 =>
      match from_values vs1, from_values vs2 with
      | Ok st1, Ok st2 => attrs st1 !! "sum" <> attrs st2 !! "sum"
      | _, _ => False
      end
  | _, _ => False
  end.
Proof. vm_compute. discriminate. Qed.

(** Claim C1 (amended): from any table, the shorthand and the generic
    source each add ["sum"] to [def_attrs] and append under
    [attrs["sum"]] one element, the snapshot of their own defining value;
    these snapshots are named [defattrs] and [def] respectively. *)
Theorem attrs_shorthand_generic (st : SymbolTable) :
  exists v1 v2,
    values_from_str "(defattrs sum (prod attr1 attr2 attr3))" = Ok [v1] /\
    values_from_str "(def sum (attrs (prod attr1 attr2 attr3)))" = Ok [v2] /\
    STElement.name (STElement.from_value v1) = Some "defattrs" /\
    STElement.name (STElement.from_value v2) = Some "def" /\
    match st_step st v1, st_step st v2 with
    | Ok st1, Ok st2 =>
        def_attrs st1 = {["sum"]} ∪ def_attrs st /\
        def_attrs st2 = {["sum"]} ∪ def_attrs st /\
        attrs st1 = push_entry (attrs st) "sum" (STElement.from_value v1) /\
        attrs st2 = push_entry (attrs st) "sum" (STElement.from_value v2)
    | _, _ => False
    end.
Proof.
  let vs1 := values_of "(defattrs sum (prod attr1 attr2 attr3))" in
  let vs2 := values_of "(def sum (attrs (prod attr1 attr2 attr3)))" in
  match vs1 with [?v1] => match vs2 with [?v2] => exists v1, v2 end end.
  refine (conj _ (conj _ (conj _ (conj _ _)))); [vm_compute; reflexivity ..|].
  cbn; repeat split.
Qed.

(** ** Generic definitions with a one-child specification *)

(** Claim C2: for ["(def x (UInt))"] the table registers the keyword
    name ["def"] of the top-level value, not the defined name ["x"], in
    [def_prims] and in [prims]. *)
Theorem def_one_child_registers_keyword :
  match values_from_str "(def x (UInt))" with
  | Ok vs =>
      match from_values vs with
      | Ok st =>
          def_prims st = {["def"]} /\ ("x" ∉ def_prims st) /\
          prims st !! "x" = None
      | Err _ => False
      end
  | Err _ => False
  end.
Proof.
  vm_compute. refine (conj eq_refl (conj _ eq_refl)).
  set_solver.
Qed.

(** ** Qualified names in binding positions *)

Lemma attrs_values_of_symbols acc vs :
  attrs_values_of acc (map FSymbol vs) = Ok (acc ++ vs).
Proof.
  revert acc. induction vs as [|v vs IH]; intros acc; cbn.
  - by rewrite app_nil_r.
  - rewrite IH. by rewrite <- app_assoc.
Qed.

(** Claim C3: [AttrsForm::from_fun_app] accepts any symbol as the name,
    qualified or not: ["(attrs m.x (prod attr))"] parses with the name
    ["m.x"], while a qualified parameter of a function form and a
    qualified type-form name are rejected with a syntactic error. *)
Theorem attrs_name_unchecked (s : string) (vs : list string) :
  attrs_from_fun_app
    (mkFunAppForm "attrs" [FSymbol s; FFunApp "prod" (map FSymbol vs)])
    = Ok (mkAttrsForm s vs) /\
  is_qualified "m.x" = true /\
  attrs_from_str "(attrs m.x (prod attr))" = Ok (mkAttrsForm "m.x" ["attr"]) /\
  fun_from_str "(fun m.x ())" = Err (ESyntactic "expected an unqualified symbol") /\
  type_from_str "(type m.X Char)"
    = Err (ESyntactic "expected an unqualified type symbol").
Proof.
  split; [|split; [|split; [|split]]]; [|vm_compute; reflexivity ..].
  cbn. by rewrite attrs_values_of_symbols.
Qed.

(** ** The body cascade of function forms *)

Ltac is_err_out :=
  repeat match goal with
  | E : is_err ?r = true |- _ => destruct r; [discriminate E|]; clear E
  end.

Lemma fun_from_form_body f fn h tl :
  fun_from_form f = Ok fn -> tail f !! 1 = Some (Nested h tl) ->
  fun_body_form (mkForm h tl) = Ok (fun_body fn).
Proof.
  unfold fun_from_form. intros H Hl.
  destruct (negb _); [discriminate|]. destruct (negb _); [discriminate|].
  unfold index in H. rewrite Hl in H.
  destruct (tail f !! 0); [|discriminate]. cbn in H.
  destruct (fun_params_of _); [|discriminate]. cbn in H.
  destruct (fun_body_form (mkForm h tl)); [|discriminate]. by injection H as <-.
Qed.

Lemma prod_excludes_type g p :
  prod_from_form g = Ok p -> is_err (type_from_form g) = true.
Proof.
  unfold prod_from_form, type_from_form.
  destruct (String.eqb (SimpleValue.to_string (head g)) "prod") eqn:E;
    [|discriminate].
  apply String.eqb_eq in E. by rewrite E.
Qed.

(** Claim C4: when the body of a function form is a nested form, the
    body is the result of the first of [TypeForm], [ProdForm], [LetForm],
    [CaseForm] and [AppForm] that accepts it, each taken only when all
    the earlier ones fail; a nested form accepted both as a product and
    as an application gives the [ProdForm] body. *)
Theorem fun_body_cascade (f : Form) (fn : FunForm) (h : SimpleValue.t)
    (tl : list FormTailElement) :
  fun_from_form f = Ok fn -> tail f !! 1 = Some (Nested h tl) ->
  let g := mkForm h tl in
  fun_body_form g = Ok (fun_body fn) /\
  (forall t, type_from_form g = Ok t -> fun_body fn = FunFormBody.TypeForm_ t) /\
  (is_err (type_from_form g) = true ->
   forall p, prod_from_form g = Ok p -> fun_body fn = FunFormBody.ProdForm_ p) /\
  (is_err (type_from_form g) = true -> is_err (prod_from_form g) = true ->
   forall l, let_from_form g = Ok l -> fun_body fn = FunFormBody.LetForm_ l) /\
  (is_err (type_from_form g) = true -> is_err (prod_from_form g) = true ->
   is_err (let_from_form g) = true ->
   forall c, case_from_form g = Ok c -> fun_body fn = FunFormBody.CaseForm_ c) /\
  (is_err (type_from_form g) = true -> is_err (prod_from_form g) = true ->
   is_err (let_from_form g) = true -> is_err (case_from_form g) = true ->
   forall a, app_from_form g = Ok a -> fun_body fn = FunFormBody.AppForm_ a) /\
  (forall p a, prod_from_form g = Ok p -> app_from_form g = Ok a ->
   fun_body fn = FunFormBody.ProdForm_ p).
Proof.
  intros H Hl g. pose proof (fun_from_form_body _ _ _ _ H Hl) as Hb. fold g in Hb.
  unfold fun_body_form in Hb.
  split; [exact Hb|]. split; [|split; [|split; [|split; [|split]]]].
  - intros t Ht. rewrite Ht in Hb. congruence.
  - intros E1 p Hp. is_err_out. rewrite Hp in Hb. congruence.
  - intros E1 E2 l Hl'. is_err_out. rewrite Hl' in Hb. congruence.
  - intros E1 E2 E3 c Hc. is_err_out. rewrite Hc in Hb. congruence.
  - intros E1 E2 E3 E4 a Ha. is_err_out. rewrite Ha in Hb. congruence.
  - intros p a Hp _. pose proof (prod_excludes_type _ _ Hp) as E1.
    is_err_out. rewrite Hp in Hb. congruence.
Qed.

Lemma fun_body_cascade_witness :
  exists f fn h tl,
    form_from_tokens (tokens_from_str "(fun x (prod a b))") = Ok f /\
    fun_from_form f = Ok fn /\ tail f !! 1 = Some (Nested h tl) /\
    is_err (prod_from_form (mkForm h tl)) = false /\
    is_err (app_from_form (mkForm h tl)) = false /\
    match prod_from_form (mkForm h tl) with
    | Ok p => fun_body fn = FunFormBody.ProdForm_ p
    | Err _ => False
    end.
Proof.
  let r := eval vm_compute in (form_from_tokens (tokens_from_str "(fun x (prod a b))")) in
  lazymatch r with Ok ?f =>
    let r2 := eval vm_compute in (fun_from_form f) in
    lazymatch r2 with Ok ?fn =>
      let r3 := eval vm_compute in (tail f !! 1) in
      lazymatch r3 with Some (Nested ?h ?tl) => exists f, fn, h, tl end end end.
  lazymatch goal with
  | |- _ /\ fun_from_form ?f = Ok ?fn /\ tail ?f !! 1 = Some (Nested ?h ?tl) /\ _ =>
      assert (Hfn : fun_from_form f = Ok fn) by (vm_compute; reflexivity);
      assert (Hl : tail f !! 1 = Some (Nested h tl)) by (vm_compute; reflexivity)
  end.
  split; [vm_compute; reflexivity|]. split; [exact Hfn|]. split; [exact Hl|].
  split; [vm_compute; reflexivity|]. split; [vm_compute; reflexivity|].
  lazymatch goal with |- context [prod_from_form ?g] =>
    destruct (prod_from_form g) as [p|] eqn:Ep; [|discriminate];
    destruct (app_from_form g) as [a|] eqn:Ea; [|discriminate]
  end.
  destruct (fun_body_cascade _ _ _ _ Hfn Hl) as (_ & _ & _ & _ & _ & _ & Hpa).
  exact (Hpa p a Ep Ea).
Defined.

(** ** Printing parsed forms *)

(** Claim C5: parsing then printing reproduces the literals of the tests
    of [FunForm], [TypeForm], [SigForm] and [AttrsForm] exactly. *)
Theorem literals_round_trip :
  Forall (fun s => result_string fun_form_to_string (fun_from_str s) = Some s)
    ["(fun () x)"; "(fun x ())"; "(fun x moduleX.x)";
     "(fun (prod a b c d) (math.+ (prod a b 10 (math.* (prod c d 10)))))"] /\
  Forall (fun s => result_string type_form_to_string (type_from_str s) = Some s)
    ["(type T Empty)"; "(type T Atomic)"; "(type T Char)"; "(type T X)";
     "(type T (Fun moduleX.X Char (Pair A B)))"] /\
  result_string sig_form_to_string (sig_from_str "(sig t Char)") = Some "(sig t Char)" /\
  result_string attrs_form_to_string (attrs_from_str "(attrs x (prod attr))")
    = Some "(attrs x (prod attr))".
Proof.
  split; [|split; [|split]];
    [ repeat (apply List.Forall_cons; [vm_compute; reflexivity|]); apply List.Forall_nil
    | repeat (apply List.Forall_cons; [vm_compute; reflexivity|]); apply List.Forall_nil
    | vm_compute; reflexivity
    | vm_compute; reflexivity ].
Qed.

(** ** Exports of a product *)

(** Claim C6: the values of ["(export (prod a b c))"] give a table whose
    exported names are [a], [b] and [c], and whose exports map has exactly
    these three keys, each with one element of its own (a snapshot of the
    product value the names are read from). *)
Theorem export_prod_registers_each :
  exists vs prodv,
    values_from_str "(export (prod a b c))" = Ok vs /\
    name prodv = Some "prod" /\
    match from_values vs with
    | Ok st =>
        exp_defs st = {[ "a"; "b"; "c" ]} /\
        exports st = {[ "a" := [STElement.from_value prodv];
                        "b" := [STElement.from_value prodv];
                        "c" := [STElement.from_value prodv] ]}
    | Err _ => False
    end.
Proof.
  let r := eval vm_compute in (values_from_str "(export (prod a b c))") in
  match r with
  | Ok ?vs =>
      exists vs;
      match vs with
      | [mkValue _ _ _ [_; ?prodv] _] => exists prodv
      end
  end.
  refine (conj _ (conj _ _)); [vm_compute; reflexivity | reflexivity |].
  vm_compute. split; reflexivity.
Qed.

(** ** Main slots *)

Lemma export_each_mains st value cs st' :
  export_each st value cs = Ok st' -> mains st' = mains st.
Proof.
  revert st. induction cs as [|c cs IH]; intros st H; cbn in H.
  - by injection H as <-.
  - destruct (name c); cbn in H; [|discriminate]. by apply IH in H.
Qed.

Lemma file_of_mains st v : mains (file_of st v) = mains st.
Proof. unfold file_of. by destruct (token_file (token v)). Qed.

Lemma define_other st c arg el st' k :
  define st c arg el = Ok st' -> main_slot_of c arg <> Some k ->
  mains st' k = mains st k.
Proof.
  unfold define, main_slot_of.
  destruct (main_of_cat c) as [[mn k']|]; [|by intros [= <-]].
  destruct (String.eqb arg mn); [|by intros [= <-]].
  cbn. destruct (mains st k'); [discriminate|].
  intros [= <-] Hk. cbn. rewrite decide_False; [reflexivity|congruence].
Qed.

Lemma define_self st c arg el st' k :
  define st c arg el = Ok st' -> main_slot_of c arg = Some k ->
  mains st' k = Some el.
Proof.
  unfold define, main_slot_of.
  destruct (main_of_cat c) as [[mn k']|]; [|discriminate].
  destruct (String.eqb arg mn); [|discriminate].
  cbn. destruct (mains st k'); [discriminate|].
  intros [= <-] [= ->]. cbn. by rewrite decide_True.
Qed.

Lemma define_dup st c arg el k e :
  main_slot_of c arg = Some k -> mains st k = Some e ->
  define st c arg el = Err (ESemantic (dup_desc k)).
Proof.
  unfold define, main_slot_of.
  destruct (main_of_cat c) as [[mn k']|]; [|discriminate].
  destruct (String.eqb arg mn); [|discriminate].
  intros [= ->] He. cbn. by rewrite He.
Qed.

(** A step that leaves the main slots alone, in the case analysis below. *)
Ltac inert Hf := right; split; [reflexivity|];
  intros ?st' Hst; cbn in Hst;
  first [ discriminate
        | injection Hst as <-; rewrite <- Hf; reflexivity
        | apply export_each_mains in Hst; rewrite Hst; exact Hf ].

Lemma st_step_cases st v :
  (exists c arg, main_def_slot v = main_slot_of c arg /\
     st_step st v = define (file_of st v) c arg (STElement.from_value v)) \/
  (main_def_slot v = None /\
     forall st', st_step st v = Ok st' -> mains st' = mains st).
Proof.
  assert (Hf : mains (file_of st v) = mains st)
    by (unfold file_of; destruct (token_file (token v)); reflexivity).
  unfold st_step, main_def_slot. fold (file_of st v).
  destruct (typing v) as [[ | | | | | | | | |[|t0 tys]]|]; try inert Hf.
  destruct t0; try inert Hf. cbn [bind index unwrap is_builtin lookup list_lookup].
  destruct (name v) as [kw|]; try inert Hf. cbn [bind unwrap].
  destruct (Keyword.from_str kw) as [k|e]; try inert Hf. cbn [bind].
  destruct k; cbn [shorthand_cat]; try inert Hf;
  repeat (case_match; simplify_eq/=; try inert Hf);
  try (left; eexists _, _; split; reflexivity).
  all: right; split; [reflexivity|]; intros st' Hst; unfold index in Hst;
    destruct (children v !! 1) as [c1|]; cbn in Hst; [|discriminate].
  - destruct (name c1); cbn in Hst; [|discriminate].
    injection Hst as <-. exact Hf.
  - destruct (Nat.ltb 1 (length (children c1))) eqn:Hlen;
      cbn in Hlen; rewrite ?Hlen in Hst.
    + apply export_each_mains in Hst. rewrite Hst. exact Hf.
    + destruct (name c1); cbn in Hst; [|discriminate].
      injection Hst as <-. exact Hf.
Qed.

Lemma st_step_other st v st' k :
  st_step st v = Ok st' -> main_def_slot v <> Some k -> mains st' k = mains st k.
Proof.
  intros H Hk. destruct (st_step_cases st v) as [(c & arg & Hs & He)|(_ & Hm)].
  - rewrite He in H. rewrite (define_other _ _ _ _ _ _ H); [|congruence].
    by rewrite file_of_mains.
  - by rewrite (Hm _ H).
Qed.

Lemma st_step_self st v st' k :
  st_step st v = Ok st' -> main_def_slot v = Some k ->
  mains st' k = Some (STElement.from_value v).
Proof.
  intros H Hk. destruct (st_step_cases st v) as [(c & arg & Hs & He)|(Hn & _)].
  - rewrite He in H. apply (define_self _ _ _ _ _ _ H). congruence.
  - congruence.
Qed.

Lemma st_step_dup st v k e :
  main_def_slot v = Some k -> mains st k = Some e ->
  st_step st v = Err (ESemantic (dup_desc k)).
Proof.
  intros Hk He. destruct (st_step_cases st v) as [(c & arg & Hs & ->)|(Hn & _)].
  - apply (define_dup _ _ _ _ _ e); [congruence|]. by rewrite file_of_mains.
  - congruence.
Qed.

Lemma st_run_app st xs ys :
  st_run st (xs ++ ys) = (let? st := st_run st xs in st_run st ys).
Proof.
  revert st. induction xs as [|x xs IH]; intros st; [reflexivity|].
  cbn. destruct (st_step st x); [apply IH|reflexivity].
Qed.

Lemma st_run_other st xs st' k :
  st_run st xs = Ok st' -> Forall (fun v => main_def_slot v <> Some k) xs ->
  mains st' k = mains st k.
Proof.
  revert st. induction xs as [|x xs IH]; intros st H Hf; cbn in H.
  - by injection H as <-.
  - inversion Hf; subst. destruct (st_step st x) as [s1|] eqn:Hs; [|discriminate].
    rewrite (IH _ H); [|assumption]. by apply (st_step_other _ _ _ _ Hs).
Qed.

(** Claim C7: in any sequence, the first top-level value that defines a
    main slot ([Main] type, main signature, function, application or
    attribute set, by a shorthand or a generic [def]) fills that slot, and
    a later definition of the same slot makes [from_values] fail with the
    semantic error of that slot ([dup_desc MFun] is
    ["duplicate main function"]). *)
Theorem main_first_wins_dup_fails (k : MainSlot) (m1 m2 : Value)
    (vs1 vs2 vs3 : Values) (st : SymbolTable) :
  main_def_slot m1 = Some k -> main_def_slot m2 = Some k ->
  Forall (fun v => main_def_slot v <> Some k) (vs1 ++ vs2) ->
  from_values (vs1 ++ m1 :: vs2) = Ok st ->
  mains st k = Some (STElement.from_value m1) /\
  from_values (vs1 ++ m1 :: vs2 ++ m2 :: vs3) = Err (ESemantic (dup_desc k)).
Proof.
  intros H1 H2 Hf Hst. apply Forall_app in Hf as [Hf1 Hf2].
  unfold from_values in *. rewrite st_run_app in Hst |- *.
  destruct (st_run st_new vs1) as [s1|] eqn:E1; [|discriminate]. cbn in Hst |- *.
  destruct (st_step s1 m1) as [s2|] eqn:E2; [|discriminate]. cbn in Hst |- *.
  assert (Hs2 : mains s2 k = Some (STElement.from_value m1))
    by exact (st_step_self _ _ _ _ E2 H1).
  split.
  - rewrite (st_run_other _ _ _ _ Hst Hf2). exact Hs2.
  - rewrite st_run_app, Hst. cbn.
    rewrite (st_step_dup st m2 k (STElement.from_value m1)); [reflexivity|exact H2|].
    rewrite (st_run_other _ _ _ _ Hst Hf2). exact Hs2.
Qed.

Lemma main_first_wins_dup_fails_witness :
  exists m1 m2,
    values_from_str "(defun main (fun () x))" = Ok [m1] /\
    values_from_str "(def main (fun (fun () x)))" = Ok [m2] /\
    match from_values [m1] with
    | Ok st =>
        mains st MFun = Some (STElement.from_value m1) /\
        from_values [m1; m2] = Err (ESemantic "duplicate main function")
    | Err _ => False
    end.
Proof.
  let r1 := eval vm_compute in (values_from_str "(defun main (fun () x))") in
  lazymatch r1 with Ok [?a] => exists a end.
  let r2 := eval vm_compute in (values_from_str "(def main (fun (fun () x)))") in
  lazymatch r2 with Ok [?b] => exists b end.
  split; [vm_compute; reflexivity|]. split; [vm_compute; reflexivity|].
  lazymatch goal with |- context [from_values [?a]] =>
    let l := constr:([a]) in
    assert (Hok : match from_values l with Ok _ => true | Err _ => false end = true)
      by (vm_compute; reflexivity);
    destruct (from_values l) as [st|] eqn:E; [|discriminate] end.
  eapply (main_first_wins_dup_fails MFun _ _ [] [] [] st);
    [vm_compute; reflexivity | vm_compute; reflexivity | apply List.Forall_nil | exact E].
Defined.

(** ** The values builder: comments and unclosed forms *)

Section Builder.
Variables ne nk nu ni nf nc ns nsym : Token -> Result Value.
Variable na : list Token -> Result Value.

Lemma scan_no_comment_arm (h1 h2 : TokenKind.t -> Token -> Result Values) toks :
  Forall (fun t => is_comment t = false) toks ->
  forall vals form count,
  scan_with ne nk nu ni nf nc ns nsym na h1 vals form count toks =
  scan_with ne nk nu ni nf nc ns nsym na h2 vals form count toks.
Proof.
  induction 1 as [|t toks Ht _ IH]; intros vals form count; [reflexivity|].
  unfold is_comment in Ht. cbn.
  destruct (kind t); try discriminate;
    repeat case_match; try apply IH; try reflexivity.
  all: unfold bind; case_match; [apply IH|reflexivity].
Qed.
End Builder.
Lemma filter_no_comment toks :
  Forall (fun t => is_comment t = false)
    (filter (fun t => negb (is_comment t)) toks).
Proof.
  induction toks as [|t toks IH]; [constructor|]. cbn.
  destruct (is_comment t) eqn:E; cbn; [exact IH|constructor; auto].
Qed.


Section Builder2.
Variables ne nk nu ni nf nc ns nsym : Token -> Result Value.
Variable na : list Token -> Result Value.
Variable h : TokenKind.t -> Token -> Result Values.

Lemma scan_open rest :
  Forall (fun t => is_comment t = false) rest ->
  forall vals form c, c <> 0%Z -> stays_open c rest = true ->
  scan_with ne nk nu ni nf nc ns nsym na h vals form c rest = Ok vals.
Proof.
  induction 1 as [|t rest Ht _ IH]; intros vals form c Hc Hs; [reflexivity|].
  cbn in Hs. apply andb_prop in Hs as [Hd Hs]. apply negb_true_iff, Z.eqb_neq in Hd.
  unfold is_comment, depth_step in *. cbn.
  assert (Hc' : negb (Z.eqb c 0) = true) by (apply negb_true_iff, Z.eqb_neq; exact Hc).
  destruct (kind t); try discriminate; rewrite ?Hc'; try (apply IH; assumption).
  rewrite (proj2 (Z.eqb_neq _ _) Hd). apply IH; assumption.
Qed.

Lemma scan_app pre :
  Forall (fun t => is_comment t = false) pre ->
  forall vals form c,
  (exists e, forall s, scan_with ne nk nu ni nf nc ns nsym na h vals form c (pre ++ s) = Err e) \/
  (exists vals' form', forall s,
     scan_with ne nk nu ni nf nc ns nsym na h vals form c (pre ++ s) =
     scan_with ne nk nu ni nf nc ns nsym na h vals' form' (depth_after c pre) s).
Proof.
  induction 1 as [|t pre Ht _ IH]; intros vals form c.
  - right. exists vals, form. reflexivity.
  - unfold is_comment in Ht. cbn [app scan_with depth_after].
    unfold depth_step.
    destruct (kind t); try discriminate;
      try (destruct (negb (Z.eqb c 0)); [apply IH|]);
      try (unfold bind; case_match; [apply IH|left; eexists; reflexivity]);
      try apply IH.
    destruct (Z.eqb (c - 1) 0); [|apply IH].
    unfold bind; case_match; [apply IH|left; eexists; reflexivity].
Qed.
End Builder2.

Lemma depth_after_filter l d :
  depth_after d (filter (fun t => negb (is_comment t)) l) = depth_after d l.
Proof.
  revert d. induction l as [|t l IH]; intros d; [reflexivity|]. cbn.
  destruct (is_comment t) eqn:E; cbn.
  - rewrite IH. unfold is_comment, depth_step in *. by destruct (kind t).
  - apply IH.
Qed.

Lemma stays_open_filter l d :
  stays_open d l = true ->
  stays_open d (filter (fun t => negb (is_comment t)) l) = true.
Proof.
  revert d. induction l as [|t l IH]; intros d H; [reflexivity|]. cbn in H |- *.
  apply andb_prop in H as [H1 H2].
  destruct (is_comment t) eqn:E; cbn.
  - apply IH. replace d with (depth_step d t); [exact H2|].
    unfold is_comment, depth_step in *. by destruct (kind t).
  - apply andb_true_intro. split; [exact H1|]. apply IH. exact H2.
Qed.

(** Claim C8: comment and doc-comment tokens are filtered out before the
    scan, so the result never depends on the comment arms of the loop;
    a token sequence made only of comments gives [Ok []]. *)
Theorem comment_arms_unreachable ne nk nu ni nf nc ns nsym na
    (h1 h2 : TokenKind.t -> Token -> Result Values) (tokens : list Token) :
  values_from_tokens_with ne nk nu ni nf nc ns nsym na h1 tokens =
  values_from_tokens_with ne nk nu ni nf nc ns nsym na h2 tokens /\
  (Forall (fun t => is_comment t = true) tokens ->
   values_from_tokens_with ne nk nu ni nf nc ns nsym na h1 tokens = Ok []).
Proof.
  split.
  - apply scan_no_comment_arm, filter_no_comment.
  - intros Hc. unfold values_from_tokens_with.
    replace (filter (fun t => negb (is_comment t)) tokens) with (@nil Token);
      [reflexivity|].
    induction Hc as [|t l Ht _ IH]; [reflexivity|]. cbn. by rewrite Ht.
Qed.

(** Claim C9: a form start with no matching form end (the count never
    comes back to zero after it) is dropped with everything after it:
    the result is the one of the tokens before it, and no error is
    raised for it. *)
Theorem unclosed_form_discarded ne nk nu ni nf nc ns nsym na
    (h : TokenKind.t -> Token -> Result Values) (pre rest : list Token) (t : Token) :
  depth_after 0 pre = 0%Z -> kind t = TokenKind.FormStart ->
  stays_open 1 rest = true ->
  values_from_tokens_with ne nk nu ni nf nc ns nsym na h (pre ++ t :: rest) =
  values_from_tokens_with ne nk nu ni nf nc ns nsym na h pre.
Proof.
  intros Hd Ht Hs. unfold values_from_tokens_with.
  rewrite filter_app.
  assert (Hnc : is_comment t = false) by (unfold is_comment; by rewrite Ht).
  rewrite filter_cons_True; [|by rewrite Hnc].
  pose proof (filter_no_comment pre) as Hp.
  rewrite <- (depth_after_filter pre) in Hd.
  destruct (scan_app ne nk nu ni nf nc ns nsym na h _ Hp [] [] 0)
    as [(e & He)|(vals' & form' & He)].
  - pose proof (He []) as He0. rewrite app_nil_r in He0. by rewrite He, He0.
  - pose proof (He []) as He0. rewrite app_nil_r in He0. rewrite He, He0, Hd.
    cbn [scan_with]. rewrite Ht.
    apply scan_open; [apply filter_no_comment|lia|].
    apply stays_open_filter. exact Hs.
Qed.

Lemma comment_arms_unreachable_witness :
  Forall (fun t => is_comment t = true)
    (tokens_from_str ("# comment" +:+ String "010"%char "#! doc comment")) /\
  values_from_str ("# comment" +:+ String "010"%char "#! doc comment") = Ok [].
Proof.
  assert (H : Forall (fun t => is_comment t = true)
                (tokens_from_str ("# comment" +:+ String "010"%char "#! doc comment")))
    by (vm_compute; repeat (apply List.Forall_cons; [reflexivity|]); apply List.Forall_nil).
  split; [exact H|].
  exact (proj2 (comment_arms_unreachable new_empty new_keyword new_uint new_int
                  new_float new_char new_string new_symbol new_app
                  source_comment_arm source_comment_arm _) H).
Defined.

Lemma unclosed_form_discarded_witness :
  values_from_str "x (import y" = values_from_str "x" /\
  values_from_str "(import" = Ok [].
Proof.
  split.
  - unfold values_from_str.
    change (tokens_from_str "x (import y") with
      (tokens_from_str "x" ++ mkToken TokenKind.FormStart "(" None
         :: tokens_from_str "import y").
    apply unclosed_form_discarded; vm_compute; reflexivity.
  - unfold values_from_str.
    change (tokens_from_str "(import") with
      ([] ++ mkToken TokenKind.FormStart "(" None :: tokens_from_str "import").
    rewrite unclosed_form_discarded; [reflexivity|vm_compute; reflexivity ..].
Defined.

(** ** Unguarded accesses in the table builder *)

(** Claim C10 (counterexample): a builtin application with no argument
    does not always make the table fail on an unguarded access:
    ["(def)"] gives the semantic error ["invalid definition"]. *)
Lemma keyword_no_arg_def_semantic :
  exists v,
    values_from_str "(def)" = Ok [v] /\
    typing v = Some (Typing.App [Typing.Builtin]) /\
    length (children v) = 1 /\
    from_values [v] = Err (ESemantic "invalid definition").
Proof.
  let r := eval vm_compute in (values_from_str "(def)") in
  match r with Ok [?v] => exists v end.
  refine (conj _ (conj _ (conj _ _))); vm_compute; reflexivity.
Qed.

(** Claim C10 (amended): a step of [from_values] panics (an index out of
    bounds or an unwrap of [None]) on an empty application typing, on a
    builtin application without a name, and on an [import], [export] or
    shorthand definition with no argument; a [def] of the wrong length
    gives the semantic error ["invalid definition"], and any other
    keyword leaves the table as it is apart from its files. *)
Theorem unguarded_access (st : SymbolTable) (v : Value) :
  (typing v = Some (Typing.App []) ->
     st_step st v = Err (EPanic "index out of bounds")) /\
  (forall tys, typing v = Some (Typing.App (Typing.Builtin :: tys)) ->
     name v = None -> st_step st v = Err (EPanic "called unwrap on a None value")) /\
  (forall tys kw k, typing v = Some (Typing.App (Typing.Builtin :: tys)) ->
     name v = Some kw -> Keyword.from_str kw = Ok k ->
     (k = Keyword.Import \/ k = Keyword.Export \/ shorthand_cat k <> None) ->
     length (children v) <= 1 ->
     st_step st v = Err (EPanic "index out of bounds")) /\
  (forall tys kw, typing v = Some (Typing.App (Typing.Builtin :: tys)) ->
     name v = Some kw -> Keyword.from_str kw = Ok Keyword.Def ->
     length (children v) <> 3 ->
     st_step st v = Err (ESemantic "invalid definition")) /\
  (forall tys kw k, typing v = Some (Typing.App (Typing.Builtin :: tys)) ->
     name v = Some kw -> Keyword.from_str kw = Ok k ->
     k <> Keyword.Import -> k <> Keyword.Export -> k <> Keyword.Def ->
     shorthand_cat k = None ->
     st_step st v = Ok (file_of st v)).
Proof.
  unfold st_step, file_of.
  repeat split.
  - intros ->. reflexivity.
  - intros tys -> ->. reflexivity.
  - intros tys kw k -> -> Hk Hcase Hlen. cbn [bind index unwrap is_builtin]. rewrite Hk.
    destruct (children v) as [|c0 [|c1 cs]] eqn:Ec; cbn in Hlen; try lia;
    destruct Hcase as [->|[->|Hs]]; try reflexivity;
    destruct k; try reflexivity; cbn in Hs; congruence.
  - intros tys kw -> -> Hk Hlen. cbn [bind index unwrap is_builtin]. rewrite Hk.
    apply Nat.eqb_neq in Hlen. rewrite Hlen. reflexivity.
  - intros tys kw k -> -> Hk H1 H2 H3 H4. cbn [bind index unwrap is_builtin]. rewrite Hk.
    destruct k; cbn in H4; try congruence; reflexivity.
Qed.

Lemma unguarded_access_witness :
  exists v,
    values_from_str "(import)" = Ok [v] /\
    st_step st_new v = Err (EPanic "index out of bounds") /\
    from_values [v] = Err (EPanic "index out of bounds").
Proof.
  let r := eval vm_compute in (values_from_str "(import)") in
  lazymatch r with Ok [?v] => exists v end.
  split; [vm_compute; reflexivity|].
  lazymatch goal with |- st_step st_new ?v = _ /\ _ =>
    assert (H : st_step st_new v = Err (EPanic "index out of bounds"));
    [ destruct (unguarded_access st_new v) as (_ & _ & H3 & _);
      apply (H3 [] "import" Keyword.Import);
      [ vm_compute; reflexivity | vm_compute; reflexivity
      | vm_compute; reflexivity | left; reflexivity | vm_compute; lia ]
    | split; [exact H|]; unfold from_values; cbn [st_run]; rewrite H; reflexivity ]
  end.
Defined.

(** ** Further properties of the table builder, the values builder and the forms *)

Section Preserve.
Variable P : SymbolTable -> Prop.
Hypothesis Hreg : forall st c arg el, P st -> P (register st c arg el).
Hypothesis Hmain : forall st c n k el, P st -> main_of_cat c = Some (n, k) ->
  n ∈ names st c -> (exists l, entries st c !! n = Some l /\ el ∈ l) ->
  mains st k = None -> P (set_main st k el).

Lemma push_entry_lookup m k el :
  push_entry m k el !! k = Some (from_option id [] (m !! k) ++ [el]).
Proof. unfold push_entry. destruct (m !! k); by rewrite lookup_insert_eq. Qed.

Lemma define_preserves st c arg el st' :
  P st -> define st c arg el = Ok st' -> P st'.
Proof.
  unfold define. intros HP H.
  destruct (main_of_cat c) as [[n k]|] eqn:Hm; [|injection H as <-; auto].
  destruct (String.eqb arg n) eqn:E; [|injection H as <-; auto].
  destruct (mains (register st c arg el) k) eqn:Hk; [discriminate|].
  injection H as <-. apply String.eqb_eq in E as ->.
  apply (Hmain _ c n); auto; cbn; rewrite decide_True by reflexivity; [set_solver|].
  rewrite push_entry_lookup. eexists; split; [reflexivity|]. set_solver.
Qed.

Lemma export_each_preserves cs : forall st value st',
  P st -> export_each st value cs = Ok st' -> P st'.
Proof.
  induction cs as [|c cs IH]; intros st value st' HP H; cbn in H.
  - by injection H as <-.
  - destruct (name c); cbn in H; [|discriminate]. eapply IH; [|exact H]. auto.
Qed.

(** What holds after the file update of a step holds after the step. *)
Lemma st_step_preserves_from st v st' :
  P (file_of st v) -> st_step st v = Ok st' -> P st'.
Proof.
  intros Hf H.
  unfold st_step in H. fold (file_of st v) in H.
  revert Hf H. generalize (file_of st v). intros s0 Hf H.
  unfold bind, index, unwrap in H.
  repeat (case_match; simplify_eq/=; try discriminate);
    try assumption; auto;
    try (eapply define_preserves; [|eassumption]; auto);
    try (eapply export_each_preserves; [|eassumption]; auto).
Qed.

Hypothesis Hfile : forall st f, P st -> P (add_file st f).

Lemma st_step_preserves st v st' : P st -> st_step st v = Ok st' -> P st'.
Proof.
  intros HP. apply st_step_preserves_from.
  unfold file_of. destruct (token_file (token v)); auto.
Qed.

Lemma st_run_preserves vs : forall st st', P st -> st_run st vs = Ok st' -> P st'.
Proof.
  induction vs as [|v vs IH]; intros st st' HP H; cbn in H.
  - by injection H as <-.
  - destruct (st_step st v) as [s1|] eqn:E; cbn in H; [|discriminate].
    eapply IH; [|exact H]. eapply st_step_preserves; eassumption.
Qed.
End Preserve.

(** ** Invariants of the table *)


Lemma maps_match_sets_register st c arg el :
  maps_match_sets st -> maps_match_sets (register st c arg el).
Proof.
  intros H c'. cbn. destruct (decide (c = c')) as [<-|]; [|apply H].
  destruct (H c) as [Hd Hn]. unfold push_entry.
  destruct (entries st c !! arg) eqn:E; split;
    rewrite ?dom_insert_L, ?Hd; try reflexivity;
    apply map_Forall_insert_2; auto; destruct l; discriminate.
Qed.

Lemma maps_match_sets_from_values vs st :
  from_values vs = Ok st -> maps_match_sets st.
Proof.
  apply st_run_preserves.
  - apply maps_match_sets_register.
  - intros s c n k el H _ _ _ _ c'. apply H.
  - intros s f H c'. apply H.
  - intros c. cbn. split; [apply dom_empty_L|apply map_Forall_empty].
Qed.


Lemma mains_registered_from_values vs st :
  from_values vs = Ok st -> mains_registered st.
Proof.
  apply st_run_preserves.
  - intros s c arg el H k e He. destruct (H k e He) as (c' & n & l & Hm & Hl & Hin).
    exists c', n. cbn. destruct (decide (c = c')) as [<-|];
      [|exists l; repeat split; assumption].
    unfold push_entry. destruct (decide (arg = n)) as [->|Hne].
    + rewrite Hl, lookup_insert_eq. eexists; split; [exact Hm|]; split; [reflexivity|set_solver].
    + destruct (entries s c !! arg); rewrite lookup_insert_ne by congruence;
        exists l; repeat split; assumption.
  - intros s c n k el H Hm _ (l & Hl & Hin) _ k' e He. cbn in He.
    destruct (decide (k = k')) as [<-|].
    + injection He as <-. exists c, n, l. repeat split; assumption.
    + apply H. exact He.
  - intros s f H. exact H.
  - intros k el He. discriminate.
Qed.

(** ** Growth *)


Lemma st_le_trans s1 s2 s3 : st_le s1 s2 -> st_le s2 s3 -> st_le s1 s3.
Proof.
  intros (F1 & N1 & E1 & M1) (F2 & N2 & E2 & M2). split; [set_solver|].
  split; [intros c; specialize (N1 c); specialize (N2 c); set_solver|].
  split; [|auto].
  intros c k l Hl. destruct (E1 _ _ _ Hl) as [l1 Hl1].
  destruct (E2 _ _ _ Hl1) as [l2 Hl2]. exists (l1 ++ l2). by rewrite app_assoc.
Qed.

Lemma st_le_register s c arg el : st_le s (register s c arg el).
Proof.
  split; [cbn; set_solver|]. split.
  { intros c'. cbn. destruct (decide (c = c')); set_solver. }
  split; [|auto].
  intros c' k l Hl. cbn. destruct (decide (c = c')) as [<-|]; [|exists []; by rewrite app_nil_r].
  unfold push_entry. destruct (decide (arg = k)) as [->|Hne].
  - rewrite Hl, lookup_insert_eq. by eexists.
  - exists []. rewrite app_nil_r.
    destruct (entries s c !! arg); rewrite lookup_insert_ne by congruence; exact Hl.
Qed.

(** Adding values never removes anything: files, names and mains are
    kept, and each list only gets elements appended. *)
Lemma table_grows_append_only vs1 vs2 st1 st2 :
  from_values vs1 = Ok st1 -> from_values (vs1 ++ vs2) = Ok st2 -> st_le st1 st2.
Proof.
  intros H1 H2. unfold from_values in *. rewrite st_run_app, H1 in H2. cbn in H2.
  revert H2. apply st_run_preserves.
  - intros s c arg el H. eapply st_le_trans; [exact H|apply st_le_register].
  - intros s c n k el H _ _ _ Hk. eapply st_le_trans; [exact H|].
    split; [set_solver|]. split; [set_solver|]. split.
    + intros c' k' l Hl. exists []. by rewrite app_nil_r.
    + intros k' e He. cbn. destruct (decide (k = k')) as [<-|]; congruence.
  - intros s f H. eapply st_le_trans; [exact H|].
    split; [cbn; set_solver|]. split; [set_solver|]. split; [|auto].
    intros c' k' l Hl. exists []. by rewrite app_nil_r.
  - split; [set_solver|]. split; [set_solver|]. split; [|auto].
    intros c' k' l Hl. exists []. by rewrite app_nil_r.
Qed.

(** The first error of the table builder is final: a sequence whose prefix
    fails fails with the same error, whatever follows. *)
Lemma from_values_err_sticky vs1 vs2 e :
  from_values vs1 = Err e -> from_values (vs1 ++ vs2) = Err e.
Proof. unfold from_values. intros H. by rewrite st_run_app, H. Qed.

(** ** Files *)

Lemma st_step_files st v st' :
  st_step st v = Ok st' -> files st' = files (file_of st v).
Proof.
  intros H. revert H. apply st_step_preserves_from with (P := fun s => files s = files (file_of st v)).
  - intros s c arg el Hs. exact Hs.
  - intros s c n k el Hs _ _ _ _. exact Hs.
  - reflexivity.
Qed.

Lemma st_run_files vs : forall st st' f, st_run st vs = Ok st' ->
  f ∈ files st' <-> f ∈ files st \/ exists v, v ∈ vs /\ token_file (token v) = Some f.
Proof.
  induction vs as [|v vs IH]; intros st st' f H; cbn in H.
  - injection H as <-. split; [auto|]. intros [Hf|(v & Hv & _)]; [exact Hf|set_solver].
  - destruct (st_step st v) as [s1|] eqn:E; cbn in H; [|discriminate].
    rewrite (IH _ _ f H), (st_step_files _ _ _ E). unfold file_of.
    destruct (token_file (token v)) as [g|] eqn:Ev; cbn.
    + split.
      * intros [Hf|(w & Hw & Hw')]; [|right; exists w; split; [set_solver|exact Hw']].
        apply elem_of_union in Hf as [Hf|Hf]; [|auto].
        apply elem_of_singleton in Hf as ->. right. exists v. split; [set_solver|exact Ev].
      * intros [Hf|(w & Hw & Hw')]; [left; set_solver|].
        apply elem_of_cons in Hw as [->|Hw]; [left; rewrite Ev in Hw'; injection Hw' as ->; set_solver|].
        right. eauto.
    + split.
      * intros [Hf|(w & Hw & Hw')]; [auto|]. right. exists w. split; [set_solver|exact Hw'].
      * intros [Hf|(w & Hw & Hw')]; [auto|].
        apply elem_of_cons in Hw as [->|Hw]; [congruence|]. right. eauto.
Qed.

(** The files of a built table are exactly the files of the tokens of the
    values. *)
Lemma from_values_files vs st f :
  from_values vs = Ok st ->
  f ∈ files st <-> exists v, v ∈ vs /\ token_file (token v) = Some f.
Proof.
  intros H. rewrite (st_run_files _ _ _ f H). cbn. set_solver.
Qed.

(** ** Steps *)




Lemma export_each_named s t cs :
  Forall (fun c => name c <> None) cs ->
  exists s', export_each s t cs = Ok s' /\
    names s' CExport = list_to_set (omap name cs) ∪ names s CExport /\
    (forall n l, entries s CExport !! n = Some l ->
       exists l', entries s' CExport !! n = Some (l ++ l')) /\
    (forall n, n ∈ omap name cs -> exists l,
       entries s' CExport !! n = Some l /\ STElement.from_value t ∈ l) /\
    (forall c, c <> CExport -> names s' c = names s c /\ entries s' c = entries s c) /\
    files s' = files s /\ mains s' = mains s.
Proof.
  revert s. induction cs as [|x cs IH]; intros s Hf.
  - exists s. split; [reflexivity|]. cbn. split; [set_solver|].
    split; [intros n l Hl; exists []; by rewrite app_nil_r|].
    split; [set_solver|]. auto.
  - apply Forall_cons in Hf as [Hx Hf].
    destruct (name x) as [a|] eqn:Ex; [|congruence].
    destruct (IH (register s CExport a (STElement.from_value t)) Hf)
      as (s' & Hs' & N & P & M & O & F & Mn).
    exists s'. split; [cbn; rewrite Ex; exact Hs'|]. cbn in N |- *. rewrite ?Ex.
    rewrite decide_True in N by reflexivity. split; [rewrite N; set_solver|].
    split.
    { intros n l Hl. destruct (st_le_register s CExport a (STElement.from_value t))
        as (_ & _ & E & _).
      destruct (E _ _ _ Hl) as [l1 Hl1]. destruct (P _ _ Hl1) as [l2 Hl2].
      exists (l1 ++ l2). by rewrite app_assoc. }
    split.
    { intros n Hn. apply elem_of_cons in Hn as [->|Hn]; [|auto].
      assert (Hp : entries (register s CExport a (STElement.from_value t)) CExport !! a =
                   Some (from_option id [] (entries s CExport !! a) ++ [STElement.from_value t]))
        by (cbn; rewrite decide_True by reflexivity; apply push_entry_lookup).
      destruct (P a _ Hp) as [l' Hl'].
      eexists; split; [exact Hl'|]. set_solver. }
    split; [|auto].
    intros c Hc. destruct (O c Hc) as [O1 O2]. rewrite O1, O2. cbn.
    destruct (decide (CExport = c)); [congruence|auto].
Qed.

(** Exporting a form with at least two children registers the names of the
    children after the first, whatever the first is, each with the whole
    exported form as its element; other categories are unchanged. *)
Lemma export_any_head st v tys kw t h cs :
  typing v = Some (Typing.App (Typing.Builtin :: tys)) ->
  name v = Some kw -> Keyword.from_str kw = Ok Keyword.Export ->
  children v !! 1 = Some t -> children t = h :: cs -> cs <> [] ->
  Forall (fun c => name c <> None) cs ->
  exists st', st_step st v = Ok st' /\
    exp_defs st' = list_to_set (omap name cs) ∪ exp_defs st /\
    (forall n, n ∈ omap name cs -> exists l,
       exports st' !! n = Some l /\ STElement.from_value t ∈ l) /\
    (forall c, c <> CExport -> names st' c = names st c /\ entries st' c = entries st c).
Proof.
  intros Ht Hn Hk H1 Hc Hne Hf.
  destruct (export_each_named (file_of st v) t cs Hf) as (s' & Hs' & N & _ & M & O & _).
  assert (Hfo : forall c, names (file_of st v) c = names st c /\
                          entries (file_of st v) c = entries st c)
    by (intros c; unfold file_of; destruct (token_file (token v)); auto).
  exists s'. split.
  - unfold st_step. fold (file_of st v). rewrite Ht. cbn. rewrite Hn. cbn. rewrite Hk. cbn.
    unfold index. rewrite H1. cbn. rewrite Hc.
    destruct cs as [|c' cs']; [congruence|]. exact Hs'.
  - unfold exp_defs, exports. rewrite N, (proj1 (Hfo CExport)). split; [reflexivity|].
    split; [exact M|]. intros c Hc'. rewrite <- (proj1 (Hfo c)), <- (proj2 (Hfo c)). auto.
Qed.

(** In every table built from values, each category's set of names is
    exactly the key set of its map, and every list in the map is nonempty. *)
Lemma table_sets_match_maps vs st :
  from_values vs = Ok st ->
  forall c, dom (entries st c) = names st c /\
            forall k l, entries st c !! k = Some l -> l <> [].
Proof.
  intros H c. destruct (maps_match_sets_from_values vs st H c) as [Hd Hn].
  split; [exact Hd|]. intros k l Hl. exact (Hn k l Hl).
Qed.

(** In every table built from values, a filled main slot holds an element
    listed under the reserved name of a category that checks that slot,
    and that name is in the category's set. *)
Lemma table_mains_registered vs st k el :
  from_values vs = Ok st -> mains st k = Some el ->
  exists c n l, main_of_cat c = Some (n, k) /\ n ∈ names st c /\
    entries st c !! n = Some l /\ el ∈ l.
Proof.
  intros H Hk. destruct (mains_registered_from_values vs st H k el Hk)
    as (c & n & l & Hm & Hl & Hin).
  exists c, n, l. split; [exact Hm|]. split; [|auto].
  rewrite <- (proj1 (maps_match_sets_from_values vs st H c)).
  apply elem_of_dom. eauto.
Qed.

Lemma from_values_err_sticky_witness :
  exists vs1 vs2,
    values_from_str "(defun main (fun () x)) (defun main (fun () y))" = Ok vs1 /\
    values_from_str "(deftype T UInt)" = Ok vs2 /\
    from_values vs1 = Err (ESemantic "duplicate main function") /\
    from_values (vs1 ++ vs2) = Err (ESemantic "duplicate main function").
Proof.
  let a := values_of "(defun main (fun () x)) (defun main (fun () y))" in exists a.
  let b := values_of "(deftype T UInt)" in exists b.
  split; [vm_compute; reflexivity|]. split; [vm_compute; reflexivity|].
  lazymatch goal with |- from_values ?a = ?e /\ _ =>
    assert (H : from_values a = e) by (vm_compute; reflexivity);
    split; [exact H|]; apply (from_values_err_sticky a); exact H
  end.
Defined.


Lemma table_sets_match_maps_witness :
  exists vs, values_from_str "(deftype RGB (Prod UInt UInt UInt)) (import a)" = Ok vs /\
    exists st, from_values vs = Ok st /\
      dom (types st) = def_types st /\ dom (imports st) = imp_paths st /\
      bool_decide ("RGB" ∈ def_types st) = true.
Proof.
  let a := values_of "(deftype RGB (Prod UInt UInt UInt)) (import a)" in exists a.
  split; [vm_compute; reflexivity|].
  lazymatch goal with |- context [from_values ?l] =>
    assert (Hm : match from_values l with
                 | Ok st => bool_decide ("RGB" ∈ def_types st) | Err _ => false end = true)
      by (vm_compute; reflexivity);
    destruct (from_values l) as [st|] eqn:E; [|discriminate]
  end.
  exists st. split; [reflexivity|]. split; [|split; [|exact Hm]].
  - apply (table_sets_match_maps _ _ E CType).
  - apply (table_sets_match_maps _ _ E CImport).
Defined.

Lemma table_mains_registered_witness :
  exists v, values_from_str "(defun main (fun () x))" = Ok [v] /\
    exists st, from_values [v] = Ok st /\ mains st MFun = Some (STElement.from_value v) /\
      exists c n l, main_of_cat c = Some (n, MFun) /\ n ∈ names st c /\
        entries st c !! n = Some l /\ STElement.from_value v ∈ l.
Proof.
  let r := eval vm_compute in (values_from_str "(defun main (fun () x))") in
  lazymatch r with Ok [?v] => exists v end.
  split; [vm_compute; reflexivity|].
  lazymatch goal with |- context [from_values ?l] =>
    assert (Hm : match from_values l with
                 | Ok st => mains st MFun = Some (STElement.from_value (List.hd (mkValue None None None [] (mkToken TokenKind.Comment "" None)) l))
                 | Err _ => False end)
      by (vm_compute; reflexivity);
    destruct (from_values l) as [st|] eqn:E; [|contradiction]
  end.
  exists st. split; [reflexivity|]. split; [exact Hm|].
  exact (table_mains_registered _ _ _ _ E Hm).
Defined.

Lemma table_grows_append_only_witness :
  exists v, values_from_str "(deftype RGB (Prod UInt UInt UInt))" = Ok [v] /\
    exists st1 st2, from_values [v] = Ok st1 /\ from_values ([v] ++ [v]) = Ok st2 /\
      st_le st1 st2.
Proof.
  let r := eval vm_compute in (values_from_str "(deftype RGB (Prod UInt UInt UInt))") in
  lazymatch r with Ok [?v] => exists v end.
  split; [vm_compute; reflexivity|].
  lazymatch goal with |- exists _ _, from_values ?l1 = _ /\ from_values ?l2 = _ /\ _ =>
    assert (H1 : match from_values l1 with Ok _ => true | Err _ => false end = true)
      by (vm_compute; reflexivity);
    assert (H2 : match from_values l2 with Ok _ => true | Err _ => false end = true)
      by (vm_compute; reflexivity);
    destruct (from_values l1) as [s1|] eqn:E1; [|discriminate];
    destruct (from_values l2) as [s2|] eqn:E2; [|discriminate]
  end.
  exists s1, s2. split; [reflexivity|]. split; [reflexivity|].
  exact (table_grows_append_only _ _ _ _ E1 E2).
Defined.

Lemma from_values_files_witness :
  let v := mkValue None (Some PrimValue.Empty) (Some Typing.Empty) []
             (mkToken TokenKind.EmptyLiteral "()" (Some "main.sophia")) in
  exists st, from_values [v] = Ok st /\ "main.sophia" ∈ files st /\
    forall f, f ∈ files st -> f = "main.sophia".
Proof.
  intros v. exists (add_file st_new "main.sophia"). split; [reflexivity|].
  assert (E : from_values [v] = Ok (add_file st_new "main.sophia")) by reflexivity.
  split.
  - apply (from_values_files _ _ _ E). exists v. split; [set_solver|reflexivity].
  - intros f Hf. apply (from_values_files _ _ _ E) in Hf as (w & Hw & Hw').
    apply list_elem_of_singleton in Hw as ->. cbn in Hw'. congruence.
Defined.




Lemma export_any_head_witness :
  exists v, values_from_str "(export (f a b))" = Ok [v] /\
    exists st, st_step st_new v = Ok st /\ "a" ∈ exp_defs st /\ "b" ∈ exp_defs st.
Proof.
  let r := eval vm_compute in (values_from_str "(export (f a b))") in
  lazymatch r with Ok [?v] => exists v end.
  split; [vm_compute; reflexivity|].
  lazymatch goal with |- exists _, st_step _ ?v = _ /\ _ =>
    edestruct (export_any_head st_new v) as (st & E & N & _);
    [reflexivity|reflexivity|reflexivity|reflexivity|reflexivity|discriminate
    |repeat (apply List.Forall_cons; [discriminate|]); apply List.Forall_nil|]
  end.
  exists st. split; [exact E|]. rewrite N. cbn. set_solver.
Defined.

Section Builder3.
Variables ne nk nu ni nf nc ns nsym : Token -> Result Value.
Variable na : list Token -> Result Value.
Variable h : TokenKind.t -> Token -> Result Values.

Abbreviation scan := (scan_with ne nk nu ni nf nc ns nsym na h).

Lemma scan_acc toks :
  Forall (fun t => is_comment t = false) toks ->
  forall vals form c,
  scan vals form c toks = let? vs := scan [] form c toks in Ok (vals ++ vs).
Proof.
  induction 1 as [|t toks Ht _ IH]; intros vals form c; [cbn; by rewrite app_nil_r|].
  unfold is_comment in Ht. cbn [scan_with].
  assert (Hv : forall v form c,
    scan (vals ++ [v]) form c toks = let? vs := scan [v] form c toks in Ok (vals ++ vs)).
  { intros v form' c'. rewrite (IH (vals ++ [v])), (IH [v]).
    destruct (scan [] form' c' toks); cbn; [by rewrite <- app_assoc|reflexivity]. }
  destruct (kind t); try discriminate;
    try (destruct (negb (Z.eqb c 0)); [apply IH|]);
    try (unfold bind at 1 3; destruct (_ t); [apply Hv|reflexivity]);
    try apply IH.
  destruct (Z.eqb (c - 1) 0); [|apply IH].
  unfold bind at 1 3. destruct (na _); [apply Hv|reflexivity].
Qed.

Lemma scan_balanced pre :
  Forall (fun t => is_comment t = false) pre ->
  forall vals form c, never_negative c pre = true -> depth_after c pre = 0%Z ->
  (c = 0%Z -> form = []) ->
  forall s, scan vals form c (pre ++ s) =
            let? vals' := scan vals form c pre in scan vals' [] 0 s.
Proof.
  induction 1 as [|t pre Ht _ IH]; intros vals form c Hn Hd Hf s.
  - cbn in Hd. subst c. rewrite (Hf eq_refl). reflexivity.
  - unfold is_comment in Ht. cbn in Hn, Hd. apply andb_prop in Hn as [H0 Hn].
    apply Z.leb_le in H0. unfold depth_step in Hn, Hd. cbn [app scan_with].
    destruct (kind t); try discriminate;
      try (destruct (negb (Z.eqb c 0)) eqn:Ec;
           [apply IH; auto; intros ->; discriminate|]);
      try (apply negb_false_iff, Z.eqb_eq in Ec;
           unfold bind at 1 3; destruct (_ t); [apply IH; auto|reflexivity]).
    + apply IH; auto. destruct pre; cbn in Hn; lia.
    + destruct (Z.eqb_spec (c - 1) 0) as [E|E].
      * unfold bind at 1 3. destruct (na _); [apply IH; auto; lia|reflexivity].
      * apply IH; auto; lia.
Qed.
End Builder3.

Lemma never_negative_filter l d :
  never_negative d l = true ->
  never_negative d (filter (fun t => negb (is_comment t)) l) = true.
Proof.
  revert d. induction l as [|t l IH]; intros d H; [exact H|]. cbn in H |- *.
  apply andb_prop in H as [H1 H2].
  destruct (is_comment t) eqn:E; cbn.
  - apply IH. replace d with (depth_step d t); [exact H2|].
    unfold is_comment, depth_step in *. by destruct (kind t).
  - apply andb_true_intro. split; [exact H1|]. apply IH. exact H2.
Qed.

(** The values of a token sequence whose form count never goes negative and
    ends at zero, followed by any tokens, are the values of each part,
    concatenated. *)
Theorem values_app_balanced ne nk nu ni nf nc ns nsym na
    (h : TokenKind.t -> Token -> Result Values) (t1 t2 : list Token) :
  never_negative 0 t1 = true -> depth_after 0 t1 = 0%Z ->
  values_from_tokens_with ne nk nu ni nf nc ns nsym na h (t1 ++ t2) =
  let? v1 := values_from_tokens_with ne nk nu ni nf nc ns nsym na h t1 in
  let? v2 := values_from_tokens_with ne nk nu ni nf nc ns nsym na h t2 in
  Ok (v1 ++ v2).
Proof.
  intros Hn Hd. unfold values_from_tokens_with. rewrite filter_app.
  rewrite (scan_balanced ne nk nu ni nf nc ns nsym na h _ (filter_no_comment t1));
    [|apply never_negative_filter; exact Hn|rewrite depth_after_filter; exact Hd|auto].
  destruct (scan_with _ _ _ _ _ _ _ _ _ _ [] [] 0 _) as [v1|e]; [|reflexivity].
  apply scan_acc, filter_no_comment.
Qed.

(** A form end at count zero is not an error: it and everything after it,
    until the count comes back to zero, are dropped. *)
Theorem stray_form_end_discards ne nk nu ni nf nc ns nsym na
    (h : TokenKind.t -> Token -> Result Values) (pre rest : list Token) (t : Token) :
  depth_after 0 pre = 0%Z -> kind t = TokenKind.FormEnd ->
  stays_open (-1) rest = true ->
  values_from_tokens_with ne nk nu ni nf nc ns nsym na h (pre ++ t :: rest) =
  values_from_tokens_with ne nk nu ni nf nc ns nsym na h pre.
Proof.
  intros Hd Ht Hs. unfold values_from_tokens_with.
  rewrite filter_app.
  assert (Hnc : is_comment t = false) by (unfold is_comment; by rewrite Ht).
  rewrite filter_cons_True; [|by rewrite Hnc].
  pose proof (filter_no_comment pre) as Hp.
  rewrite <- (depth_after_filter pre) in Hd.
  destruct (scan_app ne nk nu ni nf nc ns nsym na h _ Hp [] [] 0)
    as [(e & He)|(vals' & form' & He)].
  - pose proof (He []) as He0. rewrite app_nil_r in He0. by rewrite He, He0.
  - pose proof (He []) as He0. rewrite app_nil_r in He0. rewrite He, He0, Hd.
    cbn [scan_with]. rewrite Ht. cbn.
    apply scan_open; [apply filter_no_comment|lia|].
    apply stays_open_filter. exact Hs.
Qed.

Lemma values_app_balanced_witness :
  values_from_str "(f a) x (g b)" =
  (let? v1 := values_from_str "(f a) x" in
   let? v2 := values_from_str "(g b)" in Ok (v1 ++ v2)) /\
  values_from_tokens_with new_empty new_keyword new_uint new_int new_float
    new_char new_string new_symbol new_app source_comment_arm
    (tokens_from_str "(f a) x" ++ tokens_from_str "(g b)") =
  (let? v1 := values_from_str "(f a) x" in
   let? v2 := values_from_str "(g b)" in Ok (v1 ++ v2)).
Proof.
  assert (H : values_from_tokens_with new_empty new_keyword new_uint new_int new_float
    new_char new_string new_symbol new_app source_comment_arm
    (tokens_from_str "(f a) x" ++ tokens_from_str "(g b)") =
  (let? v1 := values_from_str "(f a) x" in
   let? v2 := values_from_str "(g b)" in Ok (v1 ++ v2)))
    by (apply values_app_balanced; vm_compute; reflexivity).
  split; [|exact H]. rewrite <- H. vm_compute. reflexivity.
Defined.

Lemma stray_form_end_discards_witness :
  values_from_str "x ) y" = values_from_str "x" /\
  values_from_str ") import a" = Ok [].
Proof.
  split.
  - unfold values_from_str.
    change (tokens_from_str "x ) y") with
      (tokens_from_str "x" ++ mkToken TokenKind.FormEnd ")" None
         :: tokens_from_str "y").
    apply stray_form_end_discards; vm_compute; reflexivity.
  - unfold values_from_str.
    change (tokens_from_str ") import a") with
      ([] ++ mkToken TokenKind.FormEnd ")" None :: tokens_from_str "import a").
    rewrite stray_form_end_discards; [reflexivity|vm_compute; reflexivity ..].
Defined.

Lemma types_from_form_nested h tl x :
  types_from_form (mkForm h tl) = Ok x -> exists ts, x = TForm h ts.
Proof.
  unfold types_from_form. cbn. destruct h; try discriminate;
    (destruct (_ tl) as [ts|]; [|discriminate]); cbn; intros H; injection H as <-; eauto.
Qed.

Lemma type_from_form_parts f tf :
  type_from_form f = Ok tf ->
  (exists s, tf_name tf = SimpleValue.TypeSymbol s /\
             tail f !! 0 = Some (Simple (tf_name tf))) /\
  match tail f !! 1 with
  | Some (Simple v) => types_simple v = Ok (tf_value tf)
  | Some (Nested h tl) => exists ts, tf_value tf = TForm h ts
  | None => False
  end.
Proof.
  destruct f as [hd tl]. unfold type_from_form. cbn [head tail].
  destruct (negb (String.eqb (SimpleValue.to_string hd) "type")); [discriminate|].
  destruct (negb (Nat.eqb (length tl) 2)) eqn:Hl; [discriminate|].
  apply negb_false_iff, Nat.eqb_eq in Hl.
  destruct tl as [|t0 [|t1 [|]]]; cbn in Hl; try discriminate. clear Hl.
  cbn [index lookup list_lookup bind].
  destruct t0 as [[| | | |s|]|]; try discriminate. cbn [bind].
  destruct t1 as [v|h tl].
  - destruct (types_simple v) as [tv|] eqn:E; cbn; [|discriminate].
    intros H; injection H as <-. cbn. split; [eauto|reflexivity].
  - destruct (types_from_form (mkForm h tl)) as [tf'|] eqn:E; cbn; [|discriminate].
    intros H; injection H as <-. cbn. split; [eauto|].
    exact (types_from_form_nested _ _ _ E).
Qed.

(** For a parsed type form, the name is a type symbol and each of the five
    predicates holds exactly for its kind of type; none of them holds for a
    type path symbol. *)
Theorem type_form_predicates f tf :
  type_from_form f = Ok tf ->
  (exists s, tf_name tf = SimpleValue.TypeSymbol s /\
             tail f !! 0 = Some (Simple (tf_name tf))) /\
  (is_empty_type tf = true <->
     tail f !! 1 = Some (Simple (SimpleValue.TypeKeyword "Empty"))) /\
  (is_atomic_type tf = true <->
     tail f !! 1 = Some (Simple (SimpleValue.TypeKeyword "Atomic"))) /\
  (is_type_keyword tf = true <->
     exists k, tail f !! 1 = Some (Simple (SimpleValue.TypeKeyword k)) /\
               k <> "Empty" /\ k <> "Atomic") /\
  (is_type_symbol tf = true <->
     exists s, tail f !! 1 = Some (Simple (SimpleValue.TypeSymbol s))) /\
  (is_types_form tf = true <-> exists h tl, tail f !! 1 = Some (Nested h tl)) /\
  (is_empty_type tf || is_atomic_type tf || is_type_keyword tf ||
   is_type_symbol tf || is_types_form tf = false <->
     exists s, tail f !! 1 = Some (Simple (SimpleValue.TypePathSymbol s))).
Proof.
  intros H. destruct (type_from_form_parts f tf H) as [Hn Hv]. split; [exact Hn|].
  destruct tf as [nm tv]. cbn in Hv. unfold is_empty_type, is_atomic_type, is_type_keyword, is_type_symbol,
    is_types_form. cbn [tf_value].
  destruct (tail f !! 1) as [[v|h tl]|]; [|destruct Hv as [ts ->]|contradiction].
  - destruct v as [|p|k|x|x|x]; cbn in Hv; try discriminate.
    + destruct (String.eqb k "Empty") eqn:Hk1;
        [apply String.eqb_eq in Hk1; subst k; injection Hv as <-|
         apply String.eqb_neq in Hk1; destruct (String.eqb k "Atomic") eqn:Hk2;
         [apply String.eqb_eq in Hk2; subst k|apply String.eqb_neq in Hk2];
         injection Hv as <-].
      all: cbn; repeat split; naive_solver.
    + injection Hv as <-. cbn; repeat split; naive_solver.
    + injection Hv as <-. cbn; repeat split; naive_solver.
  - cbn; repeat split; naive_solver.
Qed.


Lemma fun_prod_params_unqualified vs : forall params r,
  Forall unqualified_param params -> fun_prod_params params vs = Ok r ->
  Forall unqualified_param r.
Proof.
  induction vs as [|v vs IH]; intros params r Hp H; cbn in H.
  - by injection H as <-.
  - destruct v; try discriminate;
      destruct (is_qualified s) eqn:E; try discriminate;
      (eapply IH; [|exact H]); apply Forall_app; split; auto.
Qed.

Lemma fun_prod_params_length vs : forall params r,
  fun_prod_params params vs = Ok r -> length r = length params + length vs.
Proof.
  induction vs as [|v vs IH]; intros params r H; cbn in H.
  - injection H as <-. cbn. lia.
  - destruct v; try discriminate; destruct (is_qualified s); try discriminate;
      apply IH in H; rewrite H, length_app; cbn; lia.
Qed.

(** The parameters of a parsed function are symbols without a path
    separator, and there are none exactly when the first element is the
    empty literal or an empty product. *)
Theorem fun_params_unqualified f fn :
  fun_from_form f = Ok fn ->
  Forall unqualified_param (fun_params fn) /\
  (fun_params fn = [] <-> tail f !! 0 = Some (Simple SimpleValue.Empty) \/
     exists h tl p, tail f !! 0 = Some (Nested h tl) /\
       prod_from_form (mkForm h tl) = Ok p /\ prod_values p = []).
Proof.
  destruct f as [hd tl]. unfold fun_from_form. cbn [head tail].
  destruct (negb (String.eqb (SimpleValue.to_string hd) "fun")); [discriminate|].
  destruct (negb (Nat.eqb (length tl) 2)) eqn:Hl; [discriminate|].
  apply negb_false_iff, Nat.eqb_eq in Hl.
  destruct tl as [|t0 [|t1 [|]]]; cbn in Hl; try discriminate. clear Hl.
  cbn [index lookup list_lookup bind].
  destruct (fun_params_of (form_param t0)) as [ps|] eqn:Ep; cbn; [|discriminate].
  destruct (fun_body_of (form_param t1)); cbn; [|discriminate].
  intros H; injection H as <-. cbn [fun_params].
  destruct t0 as [[| | |s|s|s]|h tl]; cbn in Ep.
  - injection Ep as <-. split; [constructor|]. split; auto.
  - discriminate.
  - discriminate.
  - destruct (is_qualified s) eqn:E; [discriminate|]. injection Ep as <-.
    split; [by repeat constructor|]. split; [discriminate|].
    intros [H|(h & tl & p & H & _)]; discriminate.
  - destruct (is_qualified s) eqn:E; [discriminate|]. injection Ep as <-.
    split; [by repeat constructor|]. split; [discriminate|].
    intros [H|(h & tl & p & H & _)]; discriminate.
  - destruct (is_qualified s) eqn:E; [discriminate|]. injection Ep as <-.
    split; [by repeat constructor|]. split; [discriminate|].
    intros [H|(h & tl & p & H & _)]; discriminate.
  - destruct (prod_from_form (mkForm h tl)) as [p|] eqn:Epr; [|discriminate].
    split; [eapply fun_prod_params_unqualified; [constructor|exact Ep]|].
    split.
    + intros ->. right. exists h, tl, p. split; [reflexivity|]. split; [exact Epr|].
      apply fun_prod_params_length in Ep. cbn in Ep.
      by destruct (prod_values p).
    + intros [H|(h' & tl' & p' & H & Hp & Hv)]; [discriminate|].
      injection H as <- <-. rewrite Epr in Hp. injection Hp as <-.
      rewrite Hv in Ep. cbn in Ep. by injection Ep as <-.
Qed.

Lemma attrs_values_of_ok ps : forall values r,
  attrs_values_of values ps = Ok r <->
  exists ss, ps = map FSymbol ss /\ r = values ++ ss.
Proof.
  induction ps as [|p ps IH]; intros values r; cbn.
  - split; [intros H; injection H as <-; exists []; by rewrite app_nil_r|].
    intros ([|s ss] & H & ->); [by rewrite app_nil_r|discriminate].
  - destruct p; try (split; [discriminate|intros ([|s' ss] & H & _); discriminate]).
    rewrite IH. split.
    + intros (ss & -> & ->). exists (s :: ss). split; [reflexivity|].
      by rewrite <- app_assoc.
    + intros ([|s' ss] & H & ->); [discriminate|]. injection H as -> ->.
      exists ss. split; [reflexivity|]. by rewrite <- app_assoc.
Qed.

Lemma map_FSymbol_inj ss ts : map FSymbol ss = map FSymbol ts -> ss = ts.
Proof.
  revert ts. induction ss as [|s ss IH]; intros [|t ts] H; try discriminate; [reflexivity|].
  injection H as -> H. f_equal. auto.
Qed.

(** An application parses as an attribute set exactly when its name is
    attrs and its parameters are one symbol and a prod application of
    symbols; those symbols are the name and the values. *)
Theorem attrs_from_fun_app_exact fa a :
  attrs_from_fun_app fa = Ok a <->
  fa_name fa = "attrs" /\
  fa_params fa = [FSymbol (attrs_name a);
                  FFunApp "prod" (map FSymbol (attrs_values a))].
Proof.
  destruct fa as [n ps], a as [nm vs]. unfold attrs_from_fun_app. cbn [fa_name fa_params attrs_name attrs_values].
  destruct (String.eqb_spec n "attrs") as [->|Hn]; cbn;
    [|split; [discriminate|intros [H _]; congruence]].
  destruct ps as [|p0 [|p1 [|p2 ps]]]; cbn;
    try (split; [discriminate|intros [_ H]; discriminate]).
  destruct p0 as [| | |s|]; cbn;
    try (split; [discriminate|intros [_ H]; discriminate]).
  destruct p1 as [| | | |m qs]; cbn;
    try (split; [discriminate|intros [_ H]; discriminate]).
  destruct (String.eqb_spec m "prod") as [->|Hm]; cbn;
    [|split; [discriminate|intros [_ H]; congruence]].
  destruct (attrs_values_of [] qs) as [r|] eqn:E; cbn.
  - apply attrs_values_of_ok in E as (ss & -> & ->). cbn. split.
    + intros H; injection H as <- <-. auto.
    + intros [_ H]. injection H as -> Hm. f_equal. f_equal.
      apply map_FSymbol_inj. exact Hm.
  - split; [discriminate|]. intros [_ H]. injection H as -> ->.
    assert (Hok : attrs_values_of [] (map FSymbol vs) = Ok vs)
      by (apply attrs_values_of_ok; eauto).
    congruence.
Qed.

(** A signature accepts any value symbol as its name, qualified or not, and
    its name is always the value symbol of the first element. *)
Theorem sig_name_any_value_symbol hd s v t :
  SimpleValue.to_string hd = "sig" -> types_simple v = Ok t ->
  sig_from_form (mkForm hd [Simple (SimpleValue.ValueSymbol s); Simple v]) =
    Ok (mkSigForm (SimpleValue.ValueSymbol s) t) /\
  (forall f sf, sig_from_form f = Ok sf ->
     exists n, sig_name sf = SimpleValue.ValueSymbol n /\
               tail f !! 0 = Some (Simple (sig_name sf))).
Proof.
  intros Hh Ht. split.
  - unfold sig_from_form. cbn [head tail]. rewrite Hh. cbn. by rewrite Ht.
  - intros [hd' tl] sf. unfold sig_from_form. cbn [head tail].
    destruct (negb (String.eqb (SimpleValue.to_string hd') "sig")); [discriminate|].
    destruct (negb (Nat.eqb (length tl) 2)) eqn:Hl; [discriminate|].
    apply negb_false_iff, Nat.eqb_eq in Hl.
    destruct tl as [|t0 [|t1 [|]]]; cbn in Hl; try discriminate. clear Hl.
    cbn [index lookup list_lookup bind].
    destruct t0 as [[| | |n| |]|]; try discriminate. cbn [bind].
    destruct (match t1 with Simple value => types_simple value
              | Nested h tl => types_from_form (mkForm h tl) end); cbn; [|discriminate].
    intros H; injection H as <-. cbn. eauto.
Qed.

Lemma type_form_predicates_witness :
  exists tf, type_from_str "(type T m.X)" = Ok tf /\
    is_empty_type tf || is_atomic_type tf || is_type_keyword tf ||
    is_type_symbol tf || is_types_form tf = false.
Proof.
  let r := eval vm_compute in (form_from_tokens (tokens_from_str "(type T m.X)")) in
  lazymatch r with Ok ?f =>
    let r2 := eval vm_compute in (type_from_form f) in
    lazymatch r2 with Ok ?tf =>
      exists tf; split; [vm_compute; reflexivity|];
      assert (H : type_from_form f = Ok tf) by (vm_compute; reflexivity);
      destruct (type_form_predicates f tf H) as (_ & _ & _ & _ & _ & _ & H7);
      apply H7; eexists; vm_compute; reflexivity
    end
  end.
Defined.

Lemma fun_params_unqualified_witness :
  exists fn, fun_from_str "(fun (prod a B) x)" = Ok fn /\
    fun_params fn = [FunFormParam.ValueSymbol "a"; FunFormParam.TypeSymbol "B"] /\
    Forall unqualified_param (fun_params fn).
Proof.
  let r := eval vm_compute in (form_from_tokens (tokens_from_str "(fun (prod a B) x)")) in
  lazymatch r with Ok ?f =>
    let r2 := eval vm_compute in (fun_from_form f) in
    lazymatch r2 with Ok ?fn =>
      exists fn; split; [vm_compute; reflexivity|]; split; [reflexivity|];
      assert (H : fun_from_form f = Ok fn) by (vm_compute; reflexivity);
      exact (proj1 (fun_params_unqualified f fn H))
    end
  end.
Defined.

Lemma attrs_from_fun_app_exact_witness :
  attrs_from_fun_app
    (mkFunAppForm "attrs" [FSymbol "m.x"; FFunApp "prod" [FSymbol "a"; FSymbol "b"]]) =
    Ok (mkAttrsForm "m.x" ["a"; "b"]) /\
  is_err (attrs_from_fun_app
    (mkFunAppForm "attrs" [FSymbol "x"; FFunApp "sum" [FSymbol "a"]])) = true.
Proof.
  split.
  - apply attrs_from_fun_app_exact. split; reflexivity.
  - destruct (attrs_from_fun_app _) as [a|] eqn:E; [|reflexivity].
    apply attrs_from_fun_app_exact in E as [_ E]. discriminate.
Defined.

Lemma sig_name_any_value_symbol_witness :
  sig_from_str "(sig m.x UInt)" =
    Ok (mkSigForm (SimpleValue.ValueSymbol "m.x") (TKeyword (SimpleValue.TypeKeyword "UInt"))).
Proof.
  let r := eval vm_compute in (form_from_tokens (tokens_from_str "(sig m.x UInt)")) in
  lazymatch r with Ok ?f =>
    change (sig_from_str "(sig m.x UInt)") with (let? form := Ok f in sig_from_form form);
    cbn [bind]
  end.
  apply (sig_name_any_value_symbol _ "m.x" (SimpleValue.TypeKeyword "UInt")); reflexivity.
Defined.
